(** * font-mapper: the outline-based glyph matching engine of [mapper.go]

    A shallow embedding of package [mapper] and the properties of its
    glyph-existence test, outline comparator, rune resolver and batch
    driver.

    The font library ([truetype], [fixed], [font]) is an external
    collaborator.  A parsed font is represented by what the package asks
    of it: its glyph index table, the bounds query of a face opened on it
    and its outline loader. *)

From Stdlib Require Import ZArith List String Bool Lia.
From stdpp Require Import base option list gmap fin_maps.
Import ListNotations.

Local Open Scope Z_scope.

(** ** Machine integers *)

(** Go's [int32]: [rune] and [fixed.Int26_6] are both [int32].  Arithmetic
    on them wraps around silently. *)
Definition MinInt32 : Z := - 2 ^ 31.
Definition MaxInt32 : Z := 2 ^ 31 - 1.

Definition int32 (z : Z) : Prop := MinInt32 <= z <= MaxInt32.

Definition wrap32 (z : Z) : Z := (z + 2 ^ 31) mod 2 ^ 32 - 2 ^ 31.

Abbreviation rune := Z (only parsing).

(** [truetype.Index] is a [uint16]; it is only ever tested against zero. *)
Abbreviation Index := N (only parsing).

(** ** Package [fixed] *)

Module fixed.

Abbreviation Int26_6 := Z (only parsing).

(** [fixed.I(i)] is [Int26_6(i << 6)]. *)
Definition I (i : Z) : Int26_6 := wrap32 (Z.shiftl i 6).

Definition sub (x y : Int26_6) : Int26_6 := wrap32 (x - y).
Definition neg (x : Int26_6) : Int26_6 := wrap32 (- x).

Record Point26_6 := { PX : Int26_6; PY : Int26_6 }.

Record Rectangle26_6 := { Min : Point26_6; Max : Point26_6 }.

(** [func (r Rectangle26_6) Empty() bool]:
    [r.Min.X >= r.Max.X || r.Min.Y >= r.Max.Y]. *)
Definition Empty (r : Rectangle26_6) : bool :=
  (PX (Max r) <=? PX (Min r)) || (PY (Max r) <=? PY (Min r)).

End fixed.

(** ** Package [truetype] *)

Inductive Hinting := HintingNone | HintingVertical | HintingFull.

(** Go's [error] values.  [fmt.Errorf] with a [%w] verb wraps its argument
    and renders it into the message. *)
Inductive error :=
| LibError (msg : string)
| WrapError (msg : string) (err : error).

Definition Error (e : error) : string :=
  match e with
  | LibError msg => msg
  | WrapError msg _ => msg
  end.

Definition Errorf_w (prefix : string) (err : error) : error :=
  WrapError (prefix ++ Error err) err.

(** [truetype.Point]. *)
Record Point := { X : fixed.Int26_6; Y : fixed.Int26_6; Flags : Z }.

(** [truetype.GlyphBuf], restricted to the two fields the package reads. *)
Record GlyphBuf := { Points : list Point; Ends : list Z }.

(** [truetype.Options]; only [Size] is set by the package. *)
Record Options := { Size : Z }.

(** A parsed [*truetype.Font], seen through the three queries made on it:
    - [font.Index(char)];
    - [truetype.NewFace(font, opts).GlyphBounds(char)], which returns
      [(bounds, advance, ok)];
    - [buf.Load(font, scale, index, hinting)] on a fresh buffer, which
      returns the filled buffer or an error. *)
Record Font := {
  font_Index : rune -> Index;
  face_GlyphBounds : Options -> rune -> fixed.Rectangle26_6 * fixed.Int26_6 * bool;
  buf_Load : fixed.Int26_6 -> Index -> Hinting -> GlyphBuf + error
}.

(** ** The glyph existence tester *)

(** [func (g *GlyphOutlineMapper) hasGlyph(font *truetype.Font, char rune) bool].
    The font pointer may be nil.  The receiver is not used. *)
Definition hasGlyph (font : option Font) (char : rune) : bool :=
  match font with
  | None => false
  | Some font =>
    let index := font_Index font char in
    if (index =? 0)%N && negb (char =? 0) then false
    else
      let '(bounds, advance, ok) := face_GlyphBounds font {| Size := 12 |} char in
      if negb ok then false
      else if fixed.Empty bounds && (advance =? 0) then false
      else if (0xE000 <=? char) && (char <=? 0xF8FF) then
        if 0 <? advance then true
        else if negb (fixed.Empty bounds) then true
        else if (0 <? index)%N then true
        else false
      else if (0 <? index)%N then true
      else false
  end.

(** ** The outline comparator *)

Definition tolerance : fixed.Int26_6 := 10.

(** Step 2, [for i := range buf1.Ends]: runs after the lengths were found
    equal, so the index into [buf2.Ends] is always in range. *)
Fixpoint compareEnds (ends1 ends2 : list Z) : bool :=
  match ends1, ends2 with
  | [], _ => true
  | e1 :: ends1', e2 :: ends2' =>
      if negb (e1 =? e2) then false else compareEnds ends1' ends2'
  | _ :: _, [] => false
  end.

(** The body of the loop of step 4 for one pair of points: [true] when the
    pair is within tolerance. *)
Definition comparePoint (p1 p2 : Point) : bool :=
  let dx := fixed.sub (X p1) (X p2) in
  let dy := fixed.sub (Y p1) (Y p2) in
  let dx := if dx <? 0 then fixed.neg dx else dx in
  let dy := if dy <? 0 then fixed.neg dy else dy in
  if (tolerance <? dx) || (tolerance <? dy) then false else true.

(** Step 4, [for i := range buf1.Points], after the point counts were
    found equal. *)
Fixpoint comparePoints (points1 points2 : list Point) : bool :=
  match points1, points2 with
  | [], _ => true
  | p1 :: points1', p2 :: points2' =>
      if comparePoint p1 p2 then comparePoints points1' points2' else false
  | _ :: _, [] => false
  end.

(** [func (g *GlyphOutlineMapper) compareGlyphOutlines(buf1, buf2 *truetype.GlyphBuf) bool] *)
Definition compareGlyphOutlines (buf1 buf2 : GlyphBuf) : bool :=
  if negb (length (Ends buf1) =? length (Ends buf2))%nat then false
  else if negb (compareEnds (Ends buf1) (Ends buf2)) then false
  else if negb (length (Points buf1) =? length (Points buf2))%nat then false
  else comparePoints (Points buf1) (Points buf2).

(** ** Call traces

    The resolver is followed through the calls it makes to the other
    functions of the package: a computation returns its value together
    with the list of calls made, in order. *)

Inductive Call :=
| Call_hasGlyph (font : option Font) (char : rune)
| Call_GlyphOutlineEqual (specialUnicode standardUnicode : rune)
| Call_compareGlyphOutlines (buf1 buf2 : GlyphBuf).

Definition Traced (A : Type) : Type := A * list Call.

Definition ret {A} (a : A) : Traced A := (a, []).

Definition bind {A B} (m : Traced A) (k : A -> Traced B) : Traced B :=
  let '(a, t1) := m in
  let '(b, t2) := k a in
  (b, t1 ++ t2).

(** A call to a pure function of the package: the call is recorded, the
    value is the function's. *)
Definition call {A} (c : Call) (a : A) : Traced A := (a, [c]).

(** A call to a function that itself makes calls. *)
Definition enter {A} (c : Call) (m : Traced A) : Traced A :=
  let '(a, t) := m in (a, c :: t).

Definition value {A} (m : Traced A) : A := fst m.
Definition trace {A} (m : Traced A) : list Call := snd m.

Notation "'let*' x ':=' m 'in' k" := (bind m (fun x => k))
  (at level 10, x name, m at level 100, k at level 200).

Definition is_compare (c : Call) : bool :=
  match c with Call_compareGlyphOutlines _ _ => true | _ => false end.

Definition is_outline_equal (c : Call) : bool :=
  match c with Call_GlyphOutlineEqual _ _ => true | _ => false end.

(** ** The mapper *)

(** A [chan struct{}]: its capacity, the number of buffered elements and
    whether it was closed. *)
Record chan := { chan_cap : nat; chan_len : nat; chan_closed : bool }.

Definition make_chan (n : nat) : chan :=
  {| chan_cap := n; chan_len := 0; chan_closed := false |}.

(** The fonts are pointers that the constructor, the only place that
    assigns them, always sets; [wg] is the counter of the shared
    [*sync.WaitGroup]. *)
Record GlyphOutlineMapper := {
  specialFont : Font;
  standardFont : Font;
  concurrent : Z;
  wg : nat;
  sem : chan
}.

(** How a call that may not return normally ends.  [OutOfSchedule] is the
    model's own: the schedule given to a batch was too short to reach the
    end of the call. *)
Inductive outcome (A : Type) :=
| Returns (a : A)
| Panics (msg : string)
| Deadlock
| OutOfSchedule.

Arguments Returns {A} a.
Arguments Panics {A} msg.
Arguments Deadlock {A}.
Arguments OutOfSchedule {A}.

Section Construction.

(** [truetype.Parse]. *)
Variable Parse : list Byte.byte -> Font + error.

(** [func NewGlyphOutlineMapper(specialFontData, standardFontData []byte)],
    returning a mapper pointer and an error, one of them nil. *)
Definition NewGlyphOutlineMapper (specialFontData standardFontData : list Byte.byte)
  : option GlyphOutlineMapper * option error :=
  match Parse specialFontData with
  | inr err => (None, Some (Errorf_w "parse special font failed: " err))
  | inl specialFont =>
    match Parse standardFontData with
    | inr err => (None, Some (Errorf_w "parse standard font failed: " err))
    | inl standardFont =>
      (Some {| specialFont := specialFont;
               standardFont := standardFont;
               concurrent := 10;
               wg := 0;
               sem := make_chan 10 |}, None)
    end
  end.

End Construction.

(** [func (g *GlyphOutlineMapper) SetConcurrent(concurrent int)].
    [make] panics on a negative size. *)
Definition SetConcurrent (g : GlyphOutlineMapper) (n : Z) : outcome GlyphOutlineMapper :=
  if n <? 0 then Panics "makechan: size out of range"
  else Returns {| specialFont := specialFont g;
                  standardFont := standardFont g;
                  concurrent := n;
                  wg := wg g;
                  sem := make_chan (Z.to_nat n) |}.

(** [func (g *GlyphOutlineMapper) GlyphOutlineEqual(specialUnicode, standardUnicode rune) bool] *)
Definition GlyphOutlineEqual (g : GlyphOutlineMapper) (specialUnicode standardUnicode : rune)
  : Traced bool :=
  let index1 := font_Index (specialFont g) specialUnicode in
  let index2 := font_Index (standardFont g) standardUnicode in
  if (index1 =? 0)%N || (index2 =? 0)%N then ret false
  else
    match buf_Load (specialFont g) (fixed.I 1000) index1 HintingNone with
    | inr _ => ret false
    | inl buf1 =>
      match buf_Load (standardFont g) (fixed.I 1000) index2 HintingNone with
      | inr _ => ret false
      | inl buf2 =>
          call (Call_compareGlyphOutlines buf1 buf2) (compareGlyphOutlines buf1 buf2)
      end
    end.

(** ** The rune resolver *)

(** The successive values of a loop variable that starts at [j] and is
    incremented after each of [n] iterations. *)
Fixpoint loop_values (n : nat) (j : Z) : list Z :=
  match n with
  | O => []
  | S n' => j :: loop_values n' (j + 1)
  end.

(** The values taken by [j] in [for j := 0x4e00; j <= 0x9fff; j++]. *)
Definition candidates : list Z := loop_values (Z.to_nat (0x9fff - 0x4e00 + 1)) 0x4e00.

(** The loop of [MappingRune] over the remaining values [js] of [j].  [ok]
    is the named result as last assigned; [specialRune] and [standardRune]
    are still zero when the loop runs out.  [rune(j)] converts an [int] to
    an [int32]. *)
Fixpoint scan (g : GlyphOutlineMapper) (unicode : rune) (js : list Z) (ok : bool)
  : Traced (rune * rune * bool) :=
  match js with
  | [] => ret (0, 0, ok)
  | j :: js' =>
      let* ok := call (Call_hasGlyph (Some (standardFont g)) (wrap32 j))
                      (hasGlyph (Some (standardFont g)) (wrap32 j)) in
      if negb ok then scan g unicode js' ok
      else
        let* ok := enter (Call_GlyphOutlineEqual unicode (wrap32 j))
                         (GlyphOutlineEqual g unicode (wrap32 j)) in
        if ok then ret (unicode, wrap32 j, ok)
        else scan g unicode js' ok
  end.

(** [func (g *GlyphOutlineMapper) MappingRune(unicode rune)] with the named
    results [(specialRune, standardRune rune, ok bool)]. *)
Definition MappingRune (g : GlyphOutlineMapper) (unicode : rune)
  : Traced (rune * rune * bool) :=
  let* ok := call (Call_hasGlyph (Some (specialFont g)) unicode)
                  (hasGlyph (Some (specialFont g)) unicode) in
  if negb ok then ret (0, 0, ok)
  else scan g unicode candidates ok.

(** ** The batch mapper *)

(** The state of one call of [Mapping]: the loop variable [i], the
    goroutines started and not yet finished (each by its argument), the
    [sync.Map] of results, the wait group's counter and the semaphore. *)
Record batch := {
  loop_i : rune;
  running : list rune;
  results : gmap Z Z;
  b_wg : nat;
  b_sem : chan
}.

(** [g.sem <- struct{}{}] once it can proceed, and [<-g.sem]. *)
Definition chan_send (c : chan) : chan :=
  {| chan_cap := chan_cap c; chan_len := S (chan_len c); chan_closed := chan_closed c |}.

Definition chan_recv (c : chan) : chan :=
  {| chan_cap := chan_cap c; chan_len := Nat.pred (chan_len c); chan_closed := chan_closed c |}.

Definition chan_close (c : chan) : chan :=
  {| chan_cap := chan_cap c; chan_len := chan_len c; chan_closed := true |}.

(** One iteration of the dispatching loop, once the send can proceed:
    [g.wg.Add(1); g.sem <- struct{}{}; go func(i rune) {...}(i)], then
    [i++]. *)
Definition dispatch (b : batch) : batch :=
  {| loop_i := wrap32 (loop_i b + 1);
     running := running b ++ [loop_i b];
     results := results b;
     b_wg := S (b_wg b);
     b_sem := chan_send (b_sem b) |}.

(** The goroutine started for [i], the [n]-th of those running, runs to
    its end: it resolves [i], stores a positive result, and its deferred
    calls give the permit back and signal the wait group.  Each running
    goroutine has left a permit in the semaphore and is counted by the
    wait group (see [counted_finish]), so the receive does not wait and
    the counter does not become negative. *)
Definition finish (g : GlyphOutlineMapper) (n : nat) (i : rune) (b : batch) : batch :=
  let '(specialRune, standardRune, ok) := value (MappingRune g i) in
  {| loop_i := loop_i b;
     running := delete n (running b);
     results := if ok then <[specialRune := standardRune]> (results b) else results b;
     b_wg := Nat.pred (b_wg b);
     b_sem := chan_recv (b_sem b) |}.

(** Whether the goroutine of [Mapping] itself is suspended: in the loop,
    on a send to an open semaphore that has no room; after the loop, in
    [g.wg.Wait()] while the counter is positive. *)
Definition main_blocked (end_ : rune) (b : batch) : bool :=
  if loop_i b <=? end_ then
    negb (chan_closed (b_sem b)) && negb (chan_len (b_sem b) <? chan_cap (b_sem b))%nat
  else (0 <? b_wg b)%nat.

(** [results.Range] copying the [sync.Map] into a fresh Go map. *)
Definition materialize (m : gmap Z Z) : gmap Z Z :=
  map_fold (fun key value resultsMap => <[key := value]> resultsMap) ∅ m.

Definition close_sem (b : batch) : batch :=
  {| loop_i := loop_i b; running := running b; results := results b;
     b_wg := b_wg b; b_sem := chan_close (b_sem b) |}.

(** [Mapping] under a schedule.  Every number of the schedule lets one
    goroutine move: [n] below the number of running goroutines lets the
    [n]-th of them finish, any other lets the goroutine of [Mapping] move:
    one more iteration of its loop or, after the loop,
    [g.wg.Wait(); close(g.sem)] and the copy of the results.  Should that
    goroutine be suspended, the oldest running goroutine finishes instead,
    and with none running nothing can ever move again. *)
Fixpoint run (sched : list nat) (g : GlyphOutlineMapper) (end_ : rune) (b : batch)
  : outcome (gmap Z Z * batch) :=
  match sched with
  | [] => OutOfSchedule
  | n :: sched' =>
    match running b !! n with
    | Some i => run sched' g end_ (finish g n i b)
    | None =>
      if main_blocked end_ b then
        match running b with
        | [] => Deadlock
        | i :: _ => run sched' g end_ (finish g 0 i b)
        end
      else if loop_i b <=? end_ then
        if chan_closed (b_sem b) then Panics "send on closed channel"
        else run sched' g end_ (dispatch b)
      else if chan_closed (b_sem b) then Panics "close of closed channel"
      else Returns (materialize (results b), close_sem b)
    end
  end.

(** [func (g *GlyphOutlineMapper) Mapping(start, end rune) map[rune]rune],
    returning the table and the mapper as the call leaves it. *)
Definition Mapping (sched : list nat) (g : GlyphOutlineMapper) (start end_ : rune)
  : outcome (gmap Z Z * GlyphOutlineMapper) :=
  match run sched g end_ {| loop_i := start; running := []; results := ∅;
                            b_wg := wg g; b_sem := sem g |} with
  | Returns (resultsMap, b) =>
      Returns (resultsMap,
               {| specialFont := specialFont g; standardFont := standardFont g;
                  concurrent := concurrent g; wg := b_wg b; sem := b_sem b |})
  | Panics msg => Panics msg
  | Deadlock => Deadlock
  | OutOfSchedule => OutOfSchedule
  end.

(** ** Notions used in the statements *)

(** Whether the outline of the special glyph, or that of the standard
    glyph, fails to load. *)
Definition load_fails (g : GlyphOutlineMapper) (c j : rune) : Prop :=
  (exists err, buf_Load (specialFont g) (fixed.I 1000)
                 (font_Index (specialFont g) c) HintingNone = inr err) \/
  (exists err, buf_Load (standardFont g) (fixed.I 1000)
                 (font_Index (standardFont g) j) HintingNone = inr err).

(** Whether candidate [j] matches [c]: the standard font has a usable
    glyph for it and the outlines compare equal. *)
Definition matches (g : GlyphOutlineMapper) (c j : rune) : bool :=
  hasGlyph (Some (standardFont g)) j && value (GlyphOutlineEqual g c j).

(** A mapper on which a first batch can run: nothing in flight, the
    semaphore open, empty, and with room. *)
Definition usable (g : GlyphOutlineMapper) : Prop :=
  wg g = 0%nat /\ chan_closed (sem g) = false /\
  chan_len (sem g) = 0%nat /\ (0 < chan_cap (sem g))%nat.

Definition special_font_error (err : error) : error :=
  Errorf_w "parse special font failed: " err.

Definition standard_font_error (err : error) : error :=
  Errorf_w "parse standard font failed: " err.

(** The entry of the table for [k], if the batch reaches [k]. *)
Definition resolve (g : GlyphOutlineMapper) (k : rune) : option rune :=
  let '(_, standardRune, ok) := value (MappingRune g k) in
  if ok then Some standardRune else None.

(** What holds of a batch all along a call [Mapping(start, end)] whose
    loop can come to an end: the loop variable is in range, the running
    goroutines were given distinct codepoints already passed by the loop,
    and the results hold exactly the entries of the codepoints whose
    goroutine has finished. *)
Record batch_inv (g : GlyphOutlineMapper) (start end_ : rune) (b : batch) : Prop := {
  inv_loop : start <= loop_i b /\ (loop_i b <= end_ + 1 \/ loop_i b = start);
  inv_nodup : NoDup (running b);
  inv_running : forall k, k ∈ running b -> start <= k < loop_i b;
  inv_results : forall k,
    results b !! k =
    if decide (start <= k < loop_i b /\ k ∉ running b) then resolve g k else None;
  inv_wg : (length (running b) <= b_wg b)%nat
}.

(** Every running goroutine holds a permit and is counted by the wait
    group. *)
Definition counted (b : batch) : Prop :=
  (length (running b) <= chan_len (b_sem b))%nat /\
  (length (running b) <= b_wg b)%nat.

(** What holds along a call on a usable mapper. *)
Record live_inv (b : batch) : Prop := {
  live_open : chan_closed (b_sem b) = false;
  live_room : (0 < chan_cap (b_sem b))%nat;
  live_len : chan_len (b_sem b) = length (running b);
  live_wg : b_wg b = length (running b);
  live_loop : MinInt32 <= loop_i b
}.

(** The number of moves left before a call with upper bound [end_]
    returns. *)
Definition moves_left (end_ : rune) (b : batch) : nat :=
  2 * Z.to_nat (end_ + 1 - loop_i b) + length (running b) + 1.

(** Whether the comparator lets two coordinates pass: their 32-bit
    difference is at most the tolerance in absolute value, or is the least
    [int32], which negation leaves negative. *)
Definition within_tolerance (x y : fixed.Int26_6) : Prop :=
  - 10 <= wrap32 (x - y) <= 10 \/ wrap32 (x - y) = MinInt32.

(** An outline moved by [d] units along the abscissa. *)
Definition translate (d : Z) (buf : GlyphBuf) : GlyphBuf :=
  {| Points := map (fun p => {| X := X p + d; Y := Y p; Flags := Flags p |}) (Points buf);
     Ends := Ends buf |}.

(** The codepoints on which a trace calls [hasGlyph], in order. *)
Definition hasGlyph_chars (tr : list Call) : list rune :=
  omap (fun e => match e with Call_hasGlyph _ char => Some char | _ => None end) tr.

(** The states a call of [Mapping] goes through under a schedule, from
    [b] on: the recursion of [run], keeping the states. *)
Fixpoint visited (sched : list nat) (g : GlyphOutlineMapper) (end_ : rune) (b : batch)
  : list batch :=
  b ::
  match sched with
  | [] => []
  | n :: sched' =>
    match running b !! n with
    | Some i => visited sched' g end_ (finish g n i b)
    | None =>
      if main_blocked end_ b then
        match running b with
        | [] => []
        | i :: _ => visited sched' g end_ (finish g 0 i b)
        end
      else if loop_i b <=? end_ then
        if chan_closed (b_sem b) then []
        else visited sched' g end_ (dispatch b)
      else []
    end
  end.

(** The state in which [Mapping(start, end)] starts on [g]. *)
Definition first_batch (g : GlyphOutlineMapper) (start : rune) : batch :=
  {| loop_i := start; running := []; results := ∅; b_wg := wg g; b_sem := sem g |}.

(** ** The variant of package [main]

    The second copy of the mapper, in package [main], differs from that of
    package [mapper] in three functions: [hasGlyph] also returns the
    reason of its answer, [GlyphOutlineEqual] also returns an error, and
    [MappingRune] drops both.  The other functions are the same text. *)

Module main.

(** [func (g *GlyphOutlineMapper) hasGlyph(font *truetype.Font, char rune) (bool, string)] *)
Definition hasGlyph (font : option Font) (char : rune) : bool * string :=
  match font with
  | None => (false, "字体未加载"%string)
  | Some font =>
    let index := font_Index font char in
    if (index =? 0)%N && negb (char =? 0) then (false, "字符索引为0（字符不存在）"%string)
    else
      let '(bounds, advance, ok) := face_GlyphBounds font {| Size := 12 |} char in
      if negb ok then (false, "无法获取字形边界"%string)
      else if fixed.Empty bounds && (advance =? 0) then (false, "空边界且无宽度"%string)
      else if (0xE000 <=? char) && (char <=? 0xF8FF) then
        if 0 <? advance then (true, "私有区域有宽度"%string)
        else if negb (fixed.Empty bounds) then (true, "私有区域有边界"%string)
        else if (0 <? index)%N then (true, "私有区域有索引"%string)
        else (false, "私有区域无数据"%string)
      else if (0 <? index)%N then (true, "有效索引"%string)
      else (false, "未知原因"%string)
  end.

(** [func (g *GlyphOutlineMapper) GlyphOutlineEqual(specialUnicode, standardUnicode rune) (bool, error)] *)
Definition GlyphOutlineEqual (g : GlyphOutlineMapper) (specialUnicode standardUnicode : rune)
  : bool * option error :=
  let index1 := font_Index (specialFont g) specialUnicode in
  let index2 := font_Index (standardFont g) standardUnicode in
  if (index1 =? 0)%N || (index2 =? 0)%N then (false, None)
  else
    match buf_Load (specialFont g) (fixed.I 1000) index1 HintingNone with
    | inr err => (false, Some (Errorf_w "加载专有字体失败: " err))
    | inl buf1 =>
      match buf_Load (standardFont g) (fixed.I 1000) index2 HintingNone with
      | inr err => (false, Some (Errorf_w "加载标准字体失败: " err))
      | inl buf2 => (compareGlyphOutlines buf1 buf2, None)
      end
    end.

(** The loop of [MappingRune]; the reasons and the errors are dropped
    ([ok, _ = ...]). *)
Fixpoint scan (g : GlyphOutlineMapper) (unicode : rune) (js : list Z) (ok : bool)
  : rune * rune * bool :=
  match js with
  | [] => (0, 0, ok)
  | j :: js' =>
      let ok := fst (hasGlyph (Some (standardFont g)) (wrap32 j)) in
      if negb ok then scan g unicode js' ok
      else
        let ok := fst (GlyphOutlineEqual g unicode (wrap32 j)) in
        if ok then (unicode, wrap32 j, ok)
        else scan g unicode js' ok
  end.

(** [func (g *GlyphOutlineMapper) MappingRune(unicode rune)] of package
    [main]. *)
Definition MappingRune (g : GlyphOutlineMapper) (unicode : rune) : rune * rune * bool :=
  let ok := fst (hasGlyph (Some (specialFont g)) unicode) in
  if negb ok then (0, 0, ok)
  else scan g unicode candidates ok.

End main.

(** ** Fonts for examples *)

Module Fixtures.

Definition pt (x y : Z) : Point := {| X := x; Y := y; Flags := 1 |}.

Definition rect (x0 y0 x1 y1 : Z) : fixed.Rectangle26_6 :=
  {| fixed.Min := {| fixed.PX := x0; fixed.PY := y0 |};
     fixed.Max := {| fixed.PX := x1; fixed.PY := y1 |} |}.

(** A triangle and the same triangle moved by the tolerance. *)
Definition triangle : GlyphBuf :=
  {| Points := [pt 0 0; pt 6400 0; pt 3200 6400]; Ends := [2] |}.

Definition triangle_moved : GlyphBuf :=
  {| Points := [pt 10 (-10); pt 6390 10; pt 3210 6410]; Ends := [2] |}.

Definition square : GlyphBuf :=
  {| Points := [pt 0 0; pt 6400 0; pt 6400 6400; pt 0 6400]; Ends := [3] |}.

(** A font in which every codepoint has a glyph, glyph 5, that is an
    empty placeholder: no extent and no advance. *)
Definition placeholderFont : Font :=
  {| font_Index := fun _ => 5%N;
     face_GlyphBounds := fun _ _ => (rect 0 0 0 0, 0, true);
     buf_Load := fun _ _ _ => inl {| Points := []; Ends := [] |} |}.

(** A font whose character map is empty: every codepoint has index 0, and
    the bounds query answers with the extent and the advance of the
    missing-glyph box. *)
Definition unmappedFont : Font :=
  {| font_Index := fun _ => 0%N;
     face_GlyphBounds := fun _ _ => (rect 0 (-768) 768 0, 768, true);
     buf_Load := fun _ _ _ => inl square |}.

(** A font with no glyph at all. *)
Definition noFont : Font :=
  {| font_Index := fun _ => 0%N;
     face_GlyphBounds := fun _ _ => (rect 0 0 0 0, 0, false);
     buf_Load := fun _ _ _ => inr (LibError "no glyph") |}.

(** A special font with one private-use glyph, a triangle, at U+E000 and
    a glyph at U+E001 whose outline cannot be loaded. *)
Definition specialDemo : Font :=
  {| font_Index := fun c => if c =? 0xE000 then 1%N else if c =? 0xE001 then 2%N else 0%N;
     face_GlyphBounds := fun _ c =>
       if (c =? 0xE000) || (c =? 0xE001) then (rect 0 (-768) 768 0, 768, true)
       else (rect 0 0 0 0, 0, true);
     buf_Load := fun _ i _ =>
       if (i =? 1)%N then inl triangle else inr (LibError "bad glyph") |}.

(** A standard font with a square at U+4E00, a glyph that fails to load at
    U+4E01, and the moved triangle at both U+4E2D and U+4E2E. *)
Definition standardDemo : Font :=
  {| font_Index := fun c =>
       if c =? 0x4E00 then 1%N else if c =? 0x4E01 then 2%N
       else if c =? 0x4E2D then 3%N else if c =? 0x4E2E then 4%N else 0%N;
     face_GlyphBounds := fun _ c =>
       if (0x4E00 <=? c) && (c <=? 0x9FFF) then (rect 0 (-768) 768 0, 768, true)
       else (rect 0 0 0 0, 0, true);
     buf_Load := fun _ i _ =>
       if (i =? 1)%N then inl square
       else if (i =? 3)%N then inl triangle_moved
       else if (i =? 4)%N then inl triangle_moved
       else inr (LibError "bad glyph") |}.

Definition mapper (special standard : Font) : GlyphOutlineMapper :=
  {| specialFont := special; standardFont := standard;
     concurrent := 10; wg := 0; sem := make_chan 10 |}.

Definition demo : GlyphOutlineMapper := mapper specialDemo standardDemo.

(** A parser that accepts the two byte strings standing for the fonts
    above. *)
Definition demoParse (data : list Byte.byte) : Font + error :=
  match data with
  | [Byte.x01] => inl specialDemo
  | [Byte.x02] => inl standardDemo
  | _ => inr (LibError "freetype: invalid TrueType format")
  end.

End Fixtures.

(** * Properties *)

(** ** 32-bit arithmetic *)

Lemma wrap32_int32 z : int32 z -> wrap32 z = z.
Proof.
  unfold int32, MinInt32, MaxInt32, wrap32. intros Hz.
  rewrite Z.mod_small; lia.
Qed.

Lemma int32_wrap32 z : int32 (wrap32 z).
Proof.
  unfold int32, MinInt32, MaxInt32, wrap32.
  pose proof (Z.mod_pos_bound (z + 2 ^ 31) (2 ^ 32)). lia.
Qed.

Lemma fixed_sub_diag x : fixed.sub x x = 0.
Proof. unfold fixed.sub. rewrite Z.sub_diag. reflexivity. Qed.

(** A difference that fits in 32 bits is computed exactly. *)
Lemma fixed_sub_exact x y :
  MinInt32 <= x - y <= MaxInt32 -> fixed.sub x y = x - y.
Proof. intros H. apply wrap32_int32, H. Qed.

(** ** The outline comparator *)

Lemma compareEnds_refl ends : compareEnds ends ends = true.
Proof.
  induction ends as [|e ends IH]; simpl; [reflexivity|].
  rewrite Z.eqb_refl. exact IH.
Qed.

Lemma comparePoint_refl p : comparePoint p p = true.
Proof. unfold comparePoint. rewrite !fixed_sub_diag. reflexivity. Qed.

Lemma comparePoints_refl points : comparePoints points points = true.
Proof.
  induction points as [|p points IH]; simpl; [reflexivity|].
  rewrite comparePoint_refl. exact IH.
Qed.

Lemma compareEnds_eq ends1 ends2 :
  length ends1 = length ends2 ->
  compareEnds ends1 ends2 = true <-> ends1 = ends2.
Proof.
  revert ends2. induction ends1 as [|e1 ends1 IH]; intros [|e2 ends2] Hlen;
    simpl in *; try discriminate.
  - split; reflexivity.
  - injection Hlen as Hlen. destruct (Z.eqb_spec e1 e2) as [->|Hne]; simpl.
    + rewrite (IH _ Hlen). split; [intros ->; reflexivity | intros [= ->]; reflexivity].
    + split; [discriminate | intros [= -> _]; contradiction].
Qed.

(** What one step of the point loop decides, when the differences do not
    leave the 32-bit range. *)
Lemma comparePoint_exact p1 p2 :
  MinInt32 < X p1 - X p2 <= MaxInt32 ->
  MinInt32 < Y p1 - Y p2 <= MaxInt32 ->
  comparePoint p1 p2 = true <->
  Z.abs (X p1 - X p2) <= 10 /\ Z.abs (Y p1 - Y p2) <= 10.
Proof.
  intros Hx Hy. unfold comparePoint, tolerance.
  rewrite !fixed_sub_exact by lia.
  set (dx := X p1 - X p2) in *. set (dy := Y p1 - Y p2) in *.
  assert (Hneg : forall d, MinInt32 < d <= MaxInt32 ->
            (if d <? 0 then fixed.neg d else d) = Z.abs d).
  { intros d Hd. unfold fixed.neg. unfold MinInt32, MaxInt32 in Hd.
    destruct (Z.ltb_spec d 0).
    - rewrite wrap32_int32 by (unfold int32, MinInt32, MaxInt32; lia). lia.
    - lia. }
  rewrite !Hneg by assumption.
  destruct (Z.ltb_spec 10 (Z.abs dx)); destruct (Z.ltb_spec 10 (Z.abs dy)); simpl;
    split; intros; try discriminate; try reflexivity; lia.
Qed.

Lemma comparePoints_forall points1 points2 :
  length points1 = length points2 ->
  comparePoints points1 points2 = true <->
  Forall2 (fun p1 p2 => comparePoint p1 p2 = true) points1 points2.
Proof.
  revert points2.
  induction points1 as [|p1 points1 IH]; intros [|p2 points2] Hlen;
    simpl in *; try discriminate.
  - split; [constructor | reflexivity].
  - injection Hlen as Hlen. destruct (comparePoint p1 p2) eqn:Hp.
    + rewrite (IH _ Hlen). split.
      * intros H. constructor; assumption.
      * intros H. inversion H; assumption.
    + split; [discriminate|]. intros H. inversion H; congruence.
Qed.

(** The comparator on outlines with the same contour ends and the same
    number of points is the point loop. *)
Lemma compareGlyphOutlines_points buf1 buf2 :
  Ends buf1 = Ends buf2 ->
  length (Points buf1) = length (Points buf2) ->
  compareGlyphOutlines buf1 buf2 = comparePoints (Points buf1) (Points buf2).
Proof.
  intros Hends Hlen. unfold compareGlyphOutlines.
  rewrite Hends, Hlen, !Nat.eqb_refl, compareEnds_refl. reflexivity.
Qed.

(** The tolerance boundary, for outlines whose coordinate differences stay
    within the 32-bit range: the comparator accepts exactly the pairs
    whose points are all at most 10 units apart on each axis. *)
Lemma compareGlyphOutlines_tolerance buf1 buf2 :
  Ends buf1 = Ends buf2 ->
  length (Points buf1) = length (Points buf2) ->
  Forall2 (fun p1 p2 => MinInt32 < X p1 - X p2 <= MaxInt32 /\
                        MinInt32 < Y p1 - Y p2 <= MaxInt32)
          (Points buf1) (Points buf2) ->
  compareGlyphOutlines buf1 buf2 = true <->
  Forall2 (fun p1 p2 => Z.abs (X p1 - X p2) <= 10 /\ Z.abs (Y p1 - Y p2) <= 10)
          (Points buf1) (Points buf2).
Proof.
  intros Hends Hlen Hrange.
  rewrite compareGlyphOutlines_points, comparePoints_forall by assumption.
  clear Hlen Hends.
  induction Hrange as [|p1 p2 l1 l2 [Hx Hy] _ IH].
  - split; constructor.
  - pose proof (comparePoint_exact p1 p2 Hx Hy) as Hp.
    split; intros H; inversion H; subst; constructor; tauto.
Qed.

(** The half of the tolerance boundary that holds of all outlines: points
    that are all at most 10 units apart on each axis, deltas of exactly 10
    included, compare equal. *)
Lemma compareGlyphOutlines_within_tolerance buf1 buf2 :
  Ends buf1 = Ends buf2 ->
  Forall2 (fun p1 p2 => Z.abs (X p1 - X p2) <= 10 /\ Z.abs (Y p1 - Y p2) <= 10)
          (Points buf1) (Points buf2) ->
  compareGlyphOutlines buf1 buf2 = true.
Proof.
  intros Hends Hnear.
  pose proof (Forall2_length _ _ _ Hnear) as Hlen.
  apply compareGlyphOutlines_tolerance; try assumption.
  eapply Forall2_impl; [exact Hnear|].
  intros p1 p2 [Hx Hy]. cbv beta. unfold MinInt32, MaxInt32. lia.
Qed.

(** C10. Comparing any glyph outline against itself with
    [compareGlyphOutlines] returns true. *)
Theorem compareGlyphOutlines_refl (buf : GlyphBuf) :
  compareGlyphOutlines buf buf = true.
Proof.
  unfold compareGlyphOutlines.
  rewrite !Nat.eqb_refl, compareEnds_refl. simpl.
  apply comparePoints_refl.
Qed.

(** C4, at the input where it fails.  Two outlines with the same contour
    ends and one point each, whose abscissae are 2^32 - 1 units apart: the
    claim asks for false, the 32-bit difference wraps around to -1 and the
    comparator returns true.  So does it for points 2^31 apart, whose
    difference is the least 32-bit integer and is its own negation. *)
Theorem compareGlyphOutlines_wraps_around :
  let far1 := {| Points := [Fixtures.pt MaxInt32 0]; Ends := [0] |} in
  let far2 := {| Points := [Fixtures.pt MinInt32 0]; Ends := [0] |} in
  let half := {| Points := [Fixtures.pt 0 0]; Ends := [0] |} in
  Ends far1 = Ends far2 /\
  length (Points far1) = length (Points far2) /\
  Forall int32 (map X (Points far1 ++ Points far2 ++ Points half)) /\
  11 <= Z.abs (MaxInt32 - MinInt32) /\
  compareGlyphOutlines far1 far2 = true /\
  11 <= Z.abs (0 - MinInt32) /\
  compareGlyphOutlines half far2 = true.
Proof.
  cbv zeta. split; [reflexivity|]. split; [reflexivity|].
  split; [repeat constructor; vm_compute; congruence|].
  split; [vm_compute; congruence|]. split; [vm_compute; reflexivity|].
  split; [vm_compute; congruence|]. vm_compute; reflexivity.
Qed.

(** ** The glyph existence tester *)

Lemma hasGlyph_nil char : hasGlyph None char = false.
Proof. reflexivity. Qed.

(** A glyph the tester accepts has a nonzero index. *)
Lemma hasGlyph_index font char :
  hasGlyph (Some font) char = true -> font_Index font char <> 0%N.
Proof.
  unfold hasGlyph. intros H Hi. rewrite Hi in H.
  destruct (Z.eq_dec char 0) as [Hc|Hc].
  2: { apply Z.eqb_neq in Hc. rewrite Hc in H. discriminate. }
  subst char. simpl in H.
  destruct (face_GlyphBounds font {| Size := 12 |} 0) as [[bounds advance] ok].
  destruct (negb ok); [discriminate|].
  destruct (fixed.Empty bounds && (advance =? 0)); discriminate.
Qed.

(** C1, at the input where it fails: U+E000 in a font that gives it glyph
    index 5, an empty bounding box and no advance. *)
Lemma hasGlyph_private_use_placeholder :
  0xE000 <= 0xE000 <= 0xF8FF /\
  font_Index Fixtures.placeholderFont 0xE000 = 5%N /\
  face_GlyphBounds Fixtures.placeholderFont {| Size := 12 |} 0xE000
    = (Fixtures.rect 0 0 0 0, 0, true) /\
  fixed.Empty (Fixtures.rect 0 0 0 0) = true /\
  hasGlyph (Some Fixtures.placeholderFont) 0xE000 = false.
Proof. repeat split; try reflexivity; lia. Qed.

(** C1, amended.  For a Private Use Area codepoint with a nonzero glyph
    index whose bounds query succeeds, [hasGlyph] returns true exactly
    when the bounding box is not empty or the advance width is not zero:
    the rejection of glyphs with an empty box and zero advance comes
    first, also in the Private Use Area. *)
Theorem hasGlyph_private_use (font : Font) (c : rune)
    (bounds : fixed.Rectangle26_6) (advance : fixed.Int26_6) :
  0xE000 <= c <= 0xF8FF ->
  font_Index font c <> 0%N ->
  face_GlyphBounds font {| Size := 12 |} c = (bounds, advance, true) ->
  hasGlyph (Some font) c = negb (fixed.Empty bounds && (advance =? 0)).
Proof.
  intros Hc Hi Hb. unfold hasGlyph. rewrite Hb.
  destruct (N.eqb_spec (font_Index font c) 0) as [|_]; [contradiction|].
  assert (Hpos : (0 <? font_Index font c)%N = true) by (apply N.ltb_lt; lia).
  rewrite Hpos. simpl.
  destruct (fixed.Empty bounds && (advance =? 0)); [reflexivity|].
  replace (57344 <=? c) with true by (symmetry; apply Z.leb_le; lia).
  replace (c <=? 63743) with true by (symmetry; apply Z.leb_le; lia).
  simpl. destruct (0 <? advance), (fixed.Empty bounds); reflexivity.
Qed.

Lemma hasGlyph_private_use_witness :
  hasGlyph (Some Fixtures.specialDemo) 0xE000 = true /\
  hasGlyph (Some Fixtures.placeholderFont) 0xE000 = false.
Proof.
  split.
  - apply (hasGlyph_private_use Fixtures.specialDemo 0xE000
             (Fixtures.rect 0 (-768) 768 0) 768); [lia | vm_compute; congruence | reflexivity].
  - apply (hasGlyph_private_use Fixtures.placeholderFont 0xE000
             (Fixtures.rect 0 0 0 0) 0); [lia | vm_compute; congruence | reflexivity].
Defined.

(** C2, at the input where it fails: U+E000 in a font that gives it glyph
    index 0 while the bounds query succeeds with a box that is not empty
    and a positive advance. *)
Lemma hasGlyph_private_use_index_zero :
  0xE000 <= 0xE000 <= 0xF8FF /\
  font_Index Fixtures.unmappedFont 0xE000 = 0%N /\
  face_GlyphBounds Fixtures.unmappedFont {| Size := 12 |} 0xE000
    = (Fixtures.rect 0 (-768) 768 0, 768, true) /\
  0 < 768 /\
  fixed.Empty (Fixtures.rect 0 (-768) 768 0) = false /\
  hasGlyph (Some Fixtures.unmappedFont) 0xE000 = false.
Proof. repeat split; try reflexivity; lia. Qed.

(** C2, amended.  For every nonzero codepoint, in the Private Use Area or
    not, whose glyph index in the font is 0, [hasGlyph] returns false
    whatever the bounds query answers: index 0 is terminal. *)
Theorem hasGlyph_index_zero (font : Font) (c : rune) :
  c <> 0 ->
  font_Index font c = 0%N ->
  hasGlyph (Some font) c = false.
Proof.
  intros Hc Hi. unfold hasGlyph. rewrite Hi.
  destruct (Z.eqb_spec c 0) as [|_]; [contradiction|]. reflexivity.
Qed.

Lemma hasGlyph_index_zero_witness :
  hasGlyph (Some Fixtures.unmappedFont) 0xE000 = false.
Proof.
  apply (hasGlyph_index_zero Fixtures.unmappedFont 0xE000); [lia | reflexivity].
Defined.

(** ** Call traces *)

Lemma value_bind {A B} (m : Traced A) (k : A -> Traced B) :
  value (bind m k) = value (k (value m)).
Proof. destruct m as [a t1]. simpl. destruct (k a). reflexivity. Qed.

Lemma trace_bind {A B} (m : Traced A) (k : A -> Traced B) :
  trace (bind m k) = trace m ++ trace (k (value m)).
Proof. destruct m as [a t1]. simpl. destruct (k a). reflexivity. Qed.

Lemma value_enter {A} c (m : Traced A) : value (enter c m) = value m.
Proof. destruct m. reflexivity. Qed.

Lemma trace_enter {A} c (m : Traced A) : trace (enter c m) = c :: trace m.
Proof. destruct m. reflexivity. Qed.

(** ** The candidate range *)

Lemma loop_values_split n j pre x post :
  loop_values n j = pre ++ x :: post ->
  x = j + Z.of_nat (length pre) /\ (length pre < n)%nat /\
  forall y, j <= y < x -> In y pre.
Proof.
  revert n j. induction pre as [|p pre IH]; intros [|n] j H; simpl in H;
    try discriminate.
  - injection H as <- _. simpl. repeat split; lia.
  - injection H as <- H. destruct (IH _ _ H) as (Hx & Hn & Hy).
    simpl. repeat split; try lia.
    intros y Hyr. destruct (Z.eq_dec j y); [left; assumption|].
    right. apply Hy. lia.
Qed.

Lemma candidates_split pre x post :
  candidates = pre ++ x :: post ->
  0x4E00 <= x <= 0x9FFF /\ forall y, 0x4E00 <= y < x -> In y pre.
Proof.
  unfold candidates. intros H. apply loop_values_split in H.
  destruct H as (Hx & Hn & Hy). split; [|exact Hy].
  change (Z.to_nat (0x9fff - 0x4e00 + 1)) with (Z.to_nat 20992) in Hn. lia.
Qed.

Lemma candidate_rune j : 0x4E00 <= j <= 0x9FFF -> wrap32 j = j.
Proof.
  intros H. apply wrap32_int32. unfold int32, MinInt32, MaxInt32. lia.
Qed.

(** ** The outline equality test *)

(** [GlyphOutlineEqual] answers true only through the comparator, on the
    two loaded outlines. *)
Lemma GlyphOutlineEqual_true g c j :
  value (GlyphOutlineEqual g c j) = true ->
  exists buf1 buf2,
    buf_Load (specialFont g) (fixed.I 1000) (font_Index (specialFont g) c) HintingNone
      = inl buf1 /\
    buf_Load (standardFont g) (fixed.I 1000) (font_Index (standardFont g) j) HintingNone
      = inl buf2 /\
    compareGlyphOutlines buf1 buf2 = true.
Proof.
  unfold GlyphOutlineEqual.
  destruct ((font_Index (specialFont g) c =? 0)%N || (font_Index (standardFont g) j =? 0)%N);
    [discriminate|].
  destruct (buf_Load (specialFont g) _ _ _) as [buf1|]; [|discriminate].
  destruct (buf_Load (standardFont g) _ _ _) as [buf2|]; [|discriminate].
  intros H. exists buf1, buf2. auto.
Qed.

Lemma GlyphOutlineEqual_load_fails g c j :
  load_fails g c j -> GlyphOutlineEqual g c j = (false, []).
Proof.
  unfold GlyphOutlineEqual. intros [[err H]|[err H]]; rewrite H.
  - destruct (_ || _); reflexivity.
  - destruct (_ || _); [reflexivity|].
    destruct (buf_Load (specialFont g) _ _ _); reflexivity.
Qed.

(** ** The rune resolver *)

Lemma scan_cons g c j js ok :
  value (scan g c (j :: js) ok) =
  if matches g c (wrap32 j) then (c, wrap32 j, true) else value (scan g c js false).
Proof.
  unfold matches. cbn [scan]. rewrite value_bind. unfold call at 1. cbn [value fst].
  destruct (hasGlyph (Some (standardFont g)) (wrap32 j)); cbn [negb andb].
  - rewrite value_bind, value_enter.
    destruct (value (GlyphOutlineEqual g c (wrap32 j))); reflexivity.
  - reflexivity.
Qed.

(** A scan that reports success stopped at a matching candidate, all the
    candidates before it having failed to match. *)
Lemma scan_found g c js sr st :
  value (scan g c js false) = (sr, st, true) ->
  exists pre j post,
    js = pre ++ j :: post /\ sr = c /\ st = wrap32 j /\
    matches g c (wrap32 j) = true /\
    Forall (fun j' => matches g c (wrap32 j') = false) pre.
Proof.
  induction js as [|j js IH]; [discriminate|].
  rewrite scan_cons. destruct (matches g c (wrap32 j)) eqn:Hm.
  - intros [= <- <-]. exists [], j, js. repeat split; auto.
  - intros H. destruct (IH H) as (pre & j' & post & -> & Hsr & Hst & Hj' & Hpre).
    exists (j :: pre), j', post. repeat split; auto.
Qed.

(** A scan that reports failure found no matching candidate. *)
Lemma scan_not_found g c js ok sr st :
  value (scan g c js ok) = (sr, st, false) ->
  sr = 0 /\ st = 0 /\ Forall (fun j => matches g c (wrap32 j) = false) js.
Proof.
  revert ok. induction js as [|j js IH]; intros ok.
  - intros [= <- <- _]. auto.
  - rewrite scan_cons. destruct (matches g c (wrap32 j)) eqn:Hm; [discriminate|].
    intros H. destruct (IH _ H) as (? & ? & ?). auto.
Qed.

Lemma MappingRune_value g c :
  value (MappingRune g c) =
  if hasGlyph (Some (specialFont g)) c then value (scan g c candidates true)
  else (0, 0, false).
Proof.
  unfold MappingRune. rewrite value_bind. unfold call at 1. cbn [value fst].
  destruct (hasGlyph (Some (specialFont g)) c); reflexivity.
Qed.

Lemma candidates_cons :
  candidates = 0x4E00 :: loop_values (Z.to_nat (0x9fff - 0x4e00)) 0x4E01.
Proof. reflexivity. Qed.

(** What a successful resolution returns. *)
Lemma MappingRune_found g c sr st :
  value (MappingRune g c) = (sr, st, true) ->
  sr = c /\ 0x4E00 <= st <= 0x9FFF /\
  hasGlyph (Some (specialFont g)) c = true /\
  matches g c st = true /\
  forall j, 0x4E00 <= j < st -> matches g c j = false.
Proof.
  rewrite MappingRune_value.
  destruct (hasGlyph (Some (specialFont g)) c) eqn:Hs; [|discriminate].
  intros H.
  assert (H' : value (scan g c candidates false) = (sr, st, true)).
  { rewrite candidates_cons, scan_cons in *. exact H. }
  apply scan_found in H'.
  destruct H' as (pre & j & post & Hsplit & -> & -> & Hj & Hpre).
  apply candidates_split in Hsplit. destruct Hsplit as [Hr Hbefore].
  rewrite candidate_rune in * by exact Hr.
  repeat split; auto; try lia.
  intros y Hy. rewrite Forall_forall in Hpre.
  rewrite <- (candidate_rune y) by lia. apply Hpre, list_elem_of_In, Hbefore, Hy.
Qed.

(** A resolution that gets past the existence test on the special font
    goes on to the candidate range, starting at U+4E00. *)
Lemma MappingRune_scans g c :
  hasGlyph (Some (specialFont g)) c = true ->
  exists rest,
    trace (MappingRune g c) =
    Call_hasGlyph (Some (specialFont g)) c ::
    Call_hasGlyph (Some (standardFont g)) 0x4E00 :: rest.
Proof.
  intros H. unfold MappingRune. rewrite trace_bind. unfold call at 1 2.
  cbn [value trace fst snd]. rewrite H. cbn [negb].
  rewrite candidates_cons. cbn [scan]. rewrite trace_bind.
  unfold call at 1. cbn [trace snd app].
  rewrite (candidate_rune 0x4E00) by lia. eexists. reflexivity.
Qed.

(** C6. When the special font has no usable glyph for [c] according to
    [hasGlyph], [MappingRune] returns not-found at once: the only call it
    makes is that existence test on the special font; no candidate is
    tested, [GlyphOutlineEqual] and the comparator are not called. *)
Theorem MappingRune_no_glyph (g : GlyphOutlineMapper) (c : rune) :
  hasGlyph (Some (specialFont g)) c = false ->
  value (MappingRune g c) = (0, 0, false) /\
  trace (MappingRune g c) = [Call_hasGlyph (Some (specialFont g)) c] /\
  Forall (fun e => is_compare e = false /\ is_outline_equal e = false)
         (trace (MappingRune g c)).
Proof.
  intros H.
  assert (Ht : trace (MappingRune g c) = [Call_hasGlyph (Some (specialFont g)) c]).
  { unfold MappingRune. rewrite trace_bind. unfold call.
    cbn [value trace fst snd]. rewrite H. reflexivity. }
  split; [rewrite MappingRune_value, H; reflexivity|].
  split; [exact Ht|]. rewrite Ht. repeat constructor.
Qed.

Lemma MappingRune_no_glyph_witness :
  value (MappingRune Fixtures.demo 0xE002) = (0, 0, false) /\
  trace (MappingRune Fixtures.demo 0xE002)
    = [Call_hasGlyph (Some (specialFont Fixtures.demo)) 0xE002] /\
  Forall (fun e => is_compare e = false /\ is_outline_equal e = false)
         (trace (MappingRune Fixtures.demo 0xE002)).
Proof. apply (MappingRune_no_glyph Fixtures.demo 0xE002). reflexivity. Defined.

(** ** The constructor *)

Lemma font_errors_differ err1 err2 :
  special_font_error err1 <> standard_font_error err2 /\
  Error (special_font_error err1) <> Error (standard_font_error err2).
Proof. split; intros H; simpl in H; discriminate H. Qed.

(** C8. [NewGlyphOutlineMapper] returns a usable mapper holding the two
    parsed fonts, and no error, when both buffers parse.  When the special
    buffer fails to parse it returns no mapper and the error of the special
    font; when the special buffer parses and the standard one fails, no
    mapper and the error of the standard font.  The two kinds of error,
    and their messages, are never the same. *)
Theorem NewGlyphOutlineMapper_result (Parse : list Byte.byte -> Font + error)
    (specialFontData standardFontData : list Byte.byte) :
  (forall f1 f2, Parse specialFontData = inl f1 -> Parse standardFontData = inl f2 ->
     exists g, NewGlyphOutlineMapper Parse specialFontData standardFontData = (Some g, None) /\
               specialFont g = f1 /\ standardFont g = f2 /\
               concurrent g = 10 /\ chan_cap (sem g) = 10%nat /\ usable g) /\
  (forall err, Parse specialFontData = inr err ->
     NewGlyphOutlineMapper Parse specialFontData standardFontData
       = (None, Some (special_font_error err))) /\
  (forall f1 err, Parse specialFontData = inl f1 -> Parse standardFontData = inr err ->
     NewGlyphOutlineMapper Parse specialFontData standardFontData
       = (None, Some (standard_font_error err))) /\
  (forall err1 err2,
     special_font_error err1 <> standard_font_error err2 /\
     Error (special_font_error err1) <> Error (standard_font_error err2)).
Proof.
  unfold NewGlyphOutlineMapper. repeat split.
  - intros f1 f2 -> ->. eexists. split; [reflexivity|].
    unfold usable. simpl. repeat split; lia.
  - intros err ->. reflexivity.
  - intros f1 err -> ->. reflexivity.
  - apply font_errors_differ.
  - apply font_errors_differ.
Qed.

Lemma NewGlyphOutlineMapper_result_witness :
  (exists g, NewGlyphOutlineMapper Fixtures.demoParse [Byte.x01] [Byte.x02] = (Some g, None) /\
             specialFont g = Fixtures.specialDemo /\ standardFont g = Fixtures.standardDemo /\
             concurrent g = 10 /\ chan_cap (sem g) = 10%nat /\ usable g) /\
  NewGlyphOutlineMapper Fixtures.demoParse [Byte.x00] [Byte.x02]
    = (None, Some (special_font_error (LibError "freetype: invalid TrueType format"))) /\
  NewGlyphOutlineMapper Fixtures.demoParse [Byte.x01] []
    = (None, Some (standard_font_error (LibError "freetype: invalid TrueType format"))).
Proof.
  split; [|split].
  - apply (proj1 (NewGlyphOutlineMapper_result Fixtures.demoParse [Byte.x01] [Byte.x02]));
      reflexivity.
  - apply (proj1 (proj2 (NewGlyphOutlineMapper_result Fixtures.demoParse [Byte.x00] [Byte.x02])));
      reflexivity.
  - apply (proj1 (proj2 (proj2
             (NewGlyphOutlineMapper_result Fixtures.demoParse [Byte.x01] [])))
             Fixtures.specialDemo); reflexivity.
Defined.

(** ** The batch mapper *)

Lemma materialize_id (m : gmap Z Z) : materialize m = m.
Proof.
  unfold materialize.
  apply (map_fold_weak_ind (fun r m => r = m)); [reflexivity|].
  intros i x m' r _ ->. reflexivity.
Qed.

(** The resolver reads nothing of the mapper but its two fonts. *)
Lemma MappingRune_fonts g1 g2 c :
  specialFont g1 = specialFont g2 -> standardFont g1 = standardFont g2 ->
  MappingRune g1 c = MappingRune g2 c.
Proof.
  intros Hs Ht.
  assert (Heq : forall j, GlyphOutlineEqual g1 c j = GlyphOutlineEqual g2 c j).
  { intros j. unfold GlyphOutlineEqual. rewrite Hs, Ht. reflexivity. }
  assert (Hscan : forall js ok, scan g1 c js ok = scan g2 c js ok).
  { induction js as [|j js IH]; intros ok; cbn [scan]; [reflexivity|].
    rewrite Ht, Heq. unfold bind, call.
    destruct (hasGlyph (Some (standardFont g2)) (wrap32 j)); cbn [negb].
    - destruct (enter _ (GlyphOutlineEqual g2 c (wrap32 j))) as [[|] t];
        rewrite ?IH; reflexivity.
    - rewrite IH. reflexivity. }
  unfold MappingRune, bind, call. rewrite Hs.
  destruct (hasGlyph (Some (specialFont g2)) c); cbn [negb];
    rewrite ?Hscan; reflexivity.
Qed.

Lemma resolve_range g k v : resolve g k = Some v -> 0x4E00 <= v <= 0x9FFF.
Proof.
  unfold resolve. destruct (value (MappingRune g k)) as [[sr st] ok] eqn:H.
  destruct ok; [|discriminate]. intros [= <-].
  apply MappingRune_found in H. tauto.
Qed.

Lemma resolve_fonts g1 g2 k :
  specialFont g1 = specialFont g2 -> standardFont g1 = standardFont g2 ->
  resolve g1 k = resolve g2 k.
Proof. intros Hs Ht. unfold resolve. rewrite (MappingRune_fonts g1 g2 k Hs Ht). reflexivity. Qed.

(** What a finishing goroutine does to the results. *)
Lemma finish_results g n i b k :
  results b !! i = None ->
  results (finish g n i b) !! k = if decide (k = i) then resolve g i else results b !! k.
Proof.
  intros Hnone. unfold finish, resolve.
  destruct (value (MappingRune g i)) as [[sr st] ok] eqn:H.
  destruct ok; cbn [results].
  - apply MappingRune_found in H. destruct H as [-> _].
    rewrite lookup_insert. repeat case_decide; subst; try reflexivity; congruence.
  - case_decide; subst; [assumption | reflexivity].
Qed.

Lemma finish_fields g n i b :
  loop_i (finish g n i b) = loop_i b /\
  running (finish g n i b) = delete n (running b) /\
  b_wg (finish g n i b) = Nat.pred (b_wg b) /\
  b_sem (finish g n i b) = chan_recv (b_sem b).
Proof.
  unfold finish. destruct (value (MappingRune g i)) as [[sr st] ok]. auto.
Qed.

Lemma counted_init start w s :
  counted {| loop_i := start; running := []; results := ∅; b_wg := w; b_sem := s |}.
Proof. unfold counted. cbn. lia. Qed.

Lemma counted_dispatch b : counted b -> counted (dispatch b).
Proof. unfold counted, dispatch. cbn. rewrite length_app. cbn. lia. Qed.

(** A goroutine that finishes finds a permit to take back and a positive
    counter to decrement. *)
Lemma counted_finish g n i b :
  counted b -> running b !! n = Some i ->
  (0 < chan_len (b_sem b))%nat /\ (0 < b_wg b)%nat /\ counted (finish g n i b).
Proof.
  unfold counted. intros [Hlen Hwg] Hn.
  pose proof (lookup_lt_Some _ _ _ Hn) as Hlt.
  destruct (finish_fields g n i b) as (_ & Hr & Hw & Hs).
  rewrite Hr, Hw, Hs, length_delete by eauto. cbn. lia.
Qed.

Section Batch.

Variable g : GlyphOutlineMapper.
Variables start end_ : rune.
Hypothesis start_int32 : int32 start.
Hypothesis end_int32 : int32 end_.

Lemma batch_inv_init w s :
  batch_inv g start end_ {| loop_i := start; running := []; results := ∅; b_wg := w; b_sem := s |}.
Proof.
  constructor; cbn.
  - lia.
  - constructor.
  - intros k Hk. inversion Hk.
  - intros k. rewrite lookup_empty. case_decide; [lia | reflexivity].
  - lia.
Qed.

Lemma batch_inv_finish n i b :
  batch_inv g start end_ b -> running b !! n = Some i -> batch_inv g start end_ (finish g n i b).
Proof.
  intros [Hloop Hnd Hrun Hres Hwg] Hn.
  pose proof (delete_Permutation _ _ _ Hn) as Hperm.
  assert (Hi : i ∈ running b) by (apply list_elem_of_lookup; eauto).
  assert (Hmem : forall k, k ∈ running b <-> k = i \/ k ∈ delete n (running b)).
  { intros k. rewrite Hperm at 1. apply elem_of_cons. }
  rewrite Hperm in Hnd. apply NoDup_cons in Hnd. destruct Hnd as [Hfresh Hnd].
  destruct (finish_fields g n i b) as (Hl & Hr & Hw & _).
  constructor.
  - rewrite Hl. exact Hloop.
  - rewrite Hr. exact Hnd.
  - rewrite Hr, Hl. intros k Hk. apply Hrun, Hmem. auto.
  - intros k. rewrite Hl, Hr, finish_results.
    + pose proof (Hrun i Hi) as Hir. rewrite Hres.
      destruct (decide (k = i)) as [->|Hk].
      * rewrite decide_True; [reflexivity | split; assumption].
      * apply decide_ext. rewrite (Hmem k). tauto.
    + rewrite Hres. case_decide; [tauto | reflexivity].
  - rewrite Hr, Hw, length_delete by eauto.
    apply lookup_lt_Some in Hn. lia.
Qed.

Lemma batch_inv_dispatch b :
  end_ < MaxInt32 -> batch_inv g start end_ b -> loop_i b <= end_ -> batch_inv g start end_ (dispatch b).
Proof.
  intros Hend [Hloop Hnd Hrun Hres Hwg] Hle.
  assert (Hnext : wrap32 (loop_i b + 1) = loop_i b + 1).
  { apply wrap32_int32. unfold int32, MaxInt32, MinInt32 in *. lia. }
  assert (Hfresh : loop_i b ∉ running b).
  { intros H. apply Hrun in H. lia. }
  constructor; unfold dispatch; cbn; rewrite ?Hnext.
  - lia.
  - apply NoDup_app. repeat split; [assumption | | apply NoDup_singleton].
    intros k Hk ->%list_elem_of_singleton. contradiction.
  - intros k [Hk | ->%list_elem_of_singleton]%elem_of_app; [apply Hrun in Hk|]; lia.
  - intros k. rewrite Hres. apply decide_ext.
    rewrite elem_of_app, list_elem_of_singleton. split.
    + intros [Hr Hn]. split; [lia|]. intros [Hin|Heq]; [exact (Hn Hin) | lia].
    + intros [Hr Hn].
      assert (k <> loop_i b) by (intros Heq; apply Hn; right; exact Heq).
      split; [lia|]. intros Hin. apply Hn. left. exact Hin.
  - rewrite length_app. cbn. lia.
Qed.

(** A call that returns has resolved every codepoint of the range, and
    nothing else, whatever the schedule. *)
Lemma run_content sched b t b' :
  end_ < MaxInt32 -> batch_inv g start end_ b ->
  run sched g end_ b = Returns (t, b') ->
  forall k, t !! k = if decide (start <= k <= end_) then resolve g k else None.
Proof.
  intros Hend. revert b. induction sched as [|n sched IH]; intros b Hinv; [discriminate|].
  cbn [run]. destruct (running b !! n) as [i|] eqn:Hn.
  { apply IH, batch_inv_finish; assumption. }
  destruct (main_blocked end_ b) eqn:Hblocked.
  { destruct (running b) as [|i rest] eqn:Hrun; [discriminate|].
    apply IH, batch_inv_finish; [assumption | rewrite Hrun; reflexivity]. }
  unfold main_blocked in Hblocked.
  destruct (Z.leb_spec (loop_i b) end_) as [Hle|Hgt].
  { destruct (chan_closed (b_sem b)); [discriminate|].
    apply IH, batch_inv_dispatch; assumption. }
  destruct (chan_closed (b_sem b)); [discriminate|].
  intros [= <- _] k. rewrite materialize_id.
  destruct Hinv as [Hloop _ _ Hres Hwg].
  apply Nat.ltb_ge in Hblocked.
  assert (Hnil : running b = []) by (apply nil_length_inv; lia).
  rewrite Hres, Hnil. apply decide_ext. split.
  - intros [Hr _]. lia.
  - intros Hr. split; [lia | apply not_elem_of_nil].
Qed.

(** With the greatest [int32] as upper bound the loop condition never
    fails, and the call does not return. *)
Lemma run_no_end sched b r :
  end_ = MaxInt32 -> int32 (loop_i b) -> run sched g end_ b <> Returns r.
Proof.
  intros Hend. revert b. induction sched as [|n sched IH]; intros b Hi; [discriminate|].
  assert (Hf : forall m i, int32 (loop_i (finish g m i b))).
  { intros m i. destruct (finish_fields g m i b) as [-> _]. exact Hi. }
  cbn [run]. destruct (running b !! n) as [i|]; [apply IH, Hf|].
  destruct (main_blocked end_ b).
  { destruct (running b) as [|i rest]; [discriminate | apply IH, Hf]. }
  destruct (Z.leb_spec (loop_i b) end_) as [Hle|Hgt].
  - destruct (chan_closed (b_sem b)); [discriminate|].
    apply IH. unfold dispatch. cbn. apply int32_wrap32.
  - unfold int32 in Hi. lia.
Qed.

End Batch.

(** The content of a returned table: the entries of the codepoints of the
    range that resolve, whatever the schedule. *)
Lemma Mapping_content sched g start end_ t g' :
  int32 start -> int32 end_ ->
  Mapping sched g start end_ = Returns (t, g') ->
  forall k, t !! k = if decide (start <= k <= end_) then resolve g k else None.
Proof.
  intros Hs He. unfold Mapping.
  destruct (run sched g end_ _) as [[t0 b]| | |] eqn:Hrun; try discriminate.
  intros [= <- _].
  destruct (Z.eq_dec end_ MaxInt32) as [Hmax|Hmax].
  - exfalso. eapply (run_no_end g end_ sched); [exact Hmax | | exact Hrun]. exact Hs.
  - eapply (run_content g start end_); [exact Hs | | | exact Hrun].
    + unfold int32 in He. lia.
    + apply batch_inv_init.
Qed.

(** *** The semaphore across calls *)

Section Semaphore.

Variable g : GlyphOutlineMapper.
Variable end_ : rune.

(** A call that returns leaves the semaphore closed and the wait group at
    zero. *)
Lemma run_returns_closed sched b t b' :
  run sched g end_ b = Returns (t, b') ->
  chan_closed (b_sem b') = true /\ b_wg b' = 0%nat.
Proof.
  revert b. induction sched as [|n sched IH]; intros b; [discriminate|].
  cbn [run]. destruct (running b !! n) as [i|]; [apply IH|].
  destruct (main_blocked end_ b) eqn:Hblocked.
  { destruct (running b) as [|i rest]; [discriminate | apply IH]. }
  unfold main_blocked in Hblocked.
  destruct (loop_i b <=? end_).
  { destruct (chan_closed (b_sem b)); [discriminate | apply IH]. }
  destruct (chan_closed (b_sem b)); [discriminate|].
  intros [= _ <-]. cbn. apply Nat.ltb_ge in Hblocked. split; [reflexivity | lia].
Qed.

(** On an open semaphore no call panics, whatever the fonts answer. *)
Lemma run_open_no_panic sched b msg :
  chan_closed (b_sem b) = false -> run sched g end_ b <> Panics msg.
Proof.
  revert b. induction sched as [|n sched IH]; intros b Hopen; [discriminate|].
  assert (Hf : forall m i, chan_closed (b_sem (finish g m i b)) = false).
  { intros m i. destruct (finish_fields g m i b) as (_ & _ & _ & ->). exact Hopen. }
  cbn [run]. destruct (running b !! n) as [i|]; [apply IH, Hf|].
  destruct (main_blocked end_ b).
  { destruct (running b) as [|i rest]; [discriminate | apply IH, Hf]. }
  rewrite Hopen. destruct (loop_i b <=? end_); [|discriminate].
  apply IH. exact Hopen.
Qed.

Lemma live_inv_finish n i b :
  live_inv b -> running b !! n = Some i ->
  live_inv (finish g n i b) /\ S (moves_left end_ (finish g n i b)) = moves_left end_ b.
Proof.
  intros [Hopen Hroom Hlen Hwg Hloop] Hn.
  destruct (finish_fields g n i b) as (Hl & Hr & Hw & Hs).
  pose proof (lookup_lt_Some _ _ _ Hn) as Hlt.
  assert (Hdel : length (delete n (running b)) = Nat.pred (length (running b))).
  { rewrite length_delete by eauto. lia. }
  split.
  - constructor; rewrite ?Hl, ?Hr, ?Hw, ?Hs, ?Hdel; cbn; try assumption; congruence.
  - unfold moves_left. rewrite Hl, Hr, Hdel. lia.
Qed.

(** A call on a usable mapper with an upper bound below the greatest
    [int32] returns under every schedule that is long enough. *)
Lemma run_returns sched b :
  end_ < MaxInt32 -> live_inv b -> (moves_left end_ b <= length sched)%nat ->
  exists r, run sched g end_ b = Returns r.
Proof.
  intros Hend. revert b. induction sched as [|n sched IH]; intros b Hinv Hlen.
  { unfold moves_left in Hlen. cbn in Hlen. lia. }
  cbn [run length] in *. destruct (running b !! n) as [i|] eqn:Hn.
  { destruct (live_inv_finish n i b Hinv Hn) as [Hinv' Hm]. apply IH; [exact Hinv' | lia]. }
  assert (Hhead : forall i rest, running b = i :: rest ->
            exists r, run sched g end_ (finish g 0 i b) = Returns r).
  { intros i rest Hrun.
    destruct (live_inv_finish 0 i b Hinv) as [Hinv' Hm]; [rewrite Hrun; reflexivity|].
    apply IH; [exact Hinv' | lia]. }
  destruct Hinv as [Hopen Hroom Hlenq Hwg Hloop].
  unfold main_blocked. rewrite Hopen, Hlenq, Hwg. cbn [negb andb].
  destruct (Z.leb_spec (loop_i b) end_) as [Hle|Hgt].
  - destruct (Nat.ltb_spec (length (running b)) (chan_cap (b_sem b))) as [Hroom'|Hfull];
      cbn [negb].
    + apply IH.
      * assert (Hnext : wrap32 (loop_i b + 1) = loop_i b + 1).
        { apply wrap32_int32. unfold int32, MaxInt32, MinInt32 in *. lia. }
        constructor; unfold dispatch; cbn; rewrite ?Hnext, ?length_app; cbn;
          try assumption; lia.
      * assert (Hnext : wrap32 (loop_i b + 1) = loop_i b + 1).
        { apply wrap32_int32. unfold int32, MaxInt32, MinInt32 in *. lia. }
        unfold moves_left, dispatch in *. cbn. rewrite Hnext, length_app. cbn. lia.
    + destruct (running b) as [|i rest] eqn:Hrun; [cbn in Hfull; lia|].
      eapply Hhead. reflexivity.
  - destruct (Nat.ltb_spec 0 (length (running b))) as [Hbusy|Hidle].
    + destruct (running b) as [|i rest] eqn:Hrun; [cbn in Hbusy; lia|].
      eapply Hhead. reflexivity.
    + eexists. reflexivity.
Qed.

End Semaphore.

Lemma Mapping_returns sched g start end_ :
  usable g -> int32 start -> end_ < MaxInt32 ->
  (2 * Z.to_nat (end_ + 1 - start) + 1 <= length sched)%nat ->
  exists t g', Mapping sched g start end_ = Returns (t, g').
Proof.
  intros (Hwg & Hopen & Hlen & Hroom) Hs He Hsched. unfold Mapping.
  edestruct (run_returns g end_ sched) as [[t b] ->]; [exact He | | | eauto].
  - constructor; cbn; try assumption. apply Hs.
  - unfold moves_left. cbn. lia.
Qed.

Lemma Mapping_returns_closed sched g start end_ t g' :
  Mapping sched g start end_ = Returns (t, g') ->
  chan_closed (sem g') = true /\ wg g' = 0%nat.
Proof.
  unfold Mapping. destruct (run sched g end_ _) as [[t0 b]| | |] eqn:Hrun; try discriminate.
  intros [= _ <-]. cbn. eapply run_returns_closed, Hrun.
Qed.

Lemma Mapping_open_no_panic sched g start end_ msg :
  chan_closed (sem g) = false -> Mapping sched g start end_ <> Panics msg.
Proof.
  intros Hopen. unfold Mapping.
  destruct (run sched g end_ _) as [[t0 b]| | |] eqn:Hrun; try discriminate.
  intros [= <-]. eapply run_open_no_panic; [|exact Hrun]. exact Hopen.
Qed.

(** On a closed semaphore the first move of [Mapping] panics: in the
    loop on the send, with an empty range on the second close. *)
Lemma Mapping_closed_panics n sched g start end_ :
  chan_closed (sem g) = true -> wg g = 0%nat ->
  Mapping (n :: sched) g start end_ =
  Panics (if start <=? end_ then "send on closed channel" else "close of closed channel").
Proof.
  intros Hclosed Hwg. unfold Mapping. cbn [run running loop_i]. rewrite lookup_nil.
  unfold main_blocked. cbn [loop_i b_sem b_wg]. rewrite Hclosed, Hwg.
  destruct (start <=? end_); reflexivity.
Qed.

(** [SetConcurrent] with a positive limit replaces the semaphore, closed
    or not, by an open one. *)
Lemma SetConcurrent_reopens g n :
  0 < n -> wg g = 0%nat ->
  exists g', SetConcurrent g n = Returns g' /\ usable g' /\
             concurrent g' = n /\ chan_cap (sem g') = Z.to_nat n /\
             specialFont g' = specialFont g /\ standardFont g' = standardFont g.
Proof.
  intros Hn Hwg. unfold SetConcurrent.
  destruct (Z.ltb_spec n 0); [lia|]. eexists. split; [reflexivity|].
  unfold usable. cbn. repeat split; try assumption; lia.
Qed.

(** With a limit of zero the semaphore has no room and no goroutine is
    there to receive from it: the first send never proceeds. *)
Lemma SetConcurrent_zero_deadlock g n sched start end_ :
  start <= end_ ->
  exists g', SetConcurrent g 0 = Returns g' /\
             Mapping (n :: sched) g' start end_ = Deadlock.
Proof.
  intros Hle. eexists. split; [reflexivity|].
  unfold Mapping. cbn [run running loop_i]. rewrite lookup_nil.
  unfold main_blocked. cbn. destruct (Z.leb_spec start end_); [reflexivity | lia].
Qed.

(** ** The claims on the resolver and the batch mapper *)

(** C5. When [MappingRune] succeeds on [c] it returns [(c, s, true)] where
    [s] is the smallest codepoint of [0x4E00, 0x9FFF] for which the
    standard font has a usable glyph whose outline compares equal to that
    of [c]; and every value of a table returned by [Mapping] lies in
    [0x4E00, 0x9FFF]. *)
Theorem MappingRune_first_match :
  (forall (g : GlyphOutlineMapper) (c sr st : rune),
     value (MappingRune g c) = (sr, st, true) ->
     sr = c /\ 0x4E00 <= st <= 0x9FFF /\
     hasGlyph (Some (standardFont g)) st = true /\
     value (GlyphOutlineEqual g c st) = true /\
     forall j, 0x4E00 <= j < st ->
       hasGlyph (Some (standardFont g)) j = false \/
       value (GlyphOutlineEqual g c j) = false) /\
  (forall (sched : list nat) (g g' : GlyphOutlineMapper) (start end_ : rune)
          (t : gmap Z Z),
     int32 start -> int32 end_ ->
     Mapping sched g start end_ = Returns (t, g') ->
     forall k v, t !! k = Some v -> 0x4E00 <= v <= 0x9FFF).
Proof.
  split.
  - intros g c sr st H. apply MappingRune_found in H.
    destruct H as (Hsr & Hr & _ & Hm & Hmin).
    unfold matches in *. apply andb_true_iff in Hm. destruct Hm as [Hg He].
    repeat split; try assumption; try lia.
    intros j Hj. apply andb_false_iff, Hmin, Hj.
  - intros sched g g' start end_ t Hs He H k v Hk.
    rewrite (Mapping_content sched g start end_ t g' Hs He H) in Hk.
    case_decide; [|discriminate]. eapply resolve_range, Hk.
Qed.

Lemma MappingRune_first_match_witness :
  (0xE000 = 0xE000 /\ 0x4E00 <= 0x4E2D <= 0x9FFF /\
   hasGlyph (Some (standardFont Fixtures.demo)) 0x4E2D = true /\
   value (GlyphOutlineEqual Fixtures.demo 0xE000 0x4E2D) = true /\
   forall j, 0x4E00 <= j < 0x4E2D ->
     hasGlyph (Some (standardFont Fixtures.demo)) j = false \/
     value (GlyphOutlineEqual Fixtures.demo 0xE000 j) = false) /\
  (forall k v, ({[ 0xE000 := 0x4E2D ]} : gmap Z Z) !! k = Some v -> 0x4E00 <= v <= 0x9FFF).
Proof.
  split.
  - apply (proj1 MappingRune_first_match Fixtures.demo 0xE000 0xE000 0x4E2D).
    vm_compute. reflexivity.
  - apply (proj2 MappingRune_first_match [0; 0; 0]%nat Fixtures.demo
             {| specialFont := Fixtures.specialDemo; standardFont := Fixtures.standardDemo;
                concurrent := 10; wg := 0;
                sem := {| chan_cap := 10; chan_len := 0; chan_closed := true |} |}
             0xE000 0xE000).
    + unfold int32, MinInt32, MaxInt32. lia.
    + unfold int32, MinInt32, MaxInt32. lia.
    + reflexivity.
Defined.

(** C7. When the outline of either side fails to load for a candidate,
    [GlyphOutlineEqual] answers false without calling the comparator and
    the scan goes on with the next candidate as after any candidate that
    does not match; and no call of [Mapping] on an open semaphore panics,
    whatever the loads of the fonts answer. *)
Theorem load_failure_skips_candidate (g : GlyphOutlineMapper) (c : rune) (j : Z)
    (js : list Z) (ok : bool) :
  load_fails g c (wrap32 j) ->
  GlyphOutlineEqual g c (wrap32 j) = (false, []) /\
  value (scan g c (j :: js) ok) = value (scan g c js false) /\
  (forall sched start end_ msg,
     chan_closed (sem g) = false -> Mapping sched g start end_ <> Panics msg).
Proof.
  intros Hfail. pose proof (GlyphOutlineEqual_load_fails g c (wrap32 j) Hfail) as He.
  split; [exact He|]. split.
  - rewrite scan_cons. unfold matches. rewrite He. cbn [value fst].
    rewrite andb_false_r. reflexivity.
  - intros sched start end_ msg. apply Mapping_open_no_panic.
Qed.

Lemma load_failure_skips_candidate_witness :
  GlyphOutlineEqual Fixtures.demo 0xE000 (wrap32 0x4E01) = (false, []) /\
  value (scan Fixtures.demo 0xE000 [0x4E01; 0x4E2D] true)
    = value (scan Fixtures.demo 0xE000 [0x4E2D] false) /\
  (forall sched start end_ msg,
     chan_closed (sem Fixtures.demo) = false ->
     Mapping sched Fixtures.demo start end_ <> Panics msg).
Proof.
  apply (load_failure_skips_candidate Fixtures.demo 0xE000 0x4E01 [0x4E2D] true).
  right. exists (LibError "bad glyph"). vm_compute. reflexivity.
Defined.

(** C3, at the input where it fails.  After a call of [Mapping] that
    returned, the next call on the same mapper panics at its first move,
    whatever its bounds: [Mapping] closed the semaphore it keeps using. *)
Theorem Mapping_again_panics (sched : list nat) (g g' : GlyphOutlineMapper)
    (start end_ : rune) (t : gmap Z Z) (n : nat) (sched' : list nat)
    (start' end_' : rune) :
  Mapping sched g start end_ = Returns (t, g') ->
  Mapping (n :: sched') g' start' end_' =
  Panics (if start' <=? end_' then "send on closed channel" else "close of closed channel").
Proof.
  intros H. apply Mapping_returns_closed in H. destruct H as [Hclosed Hwg].
  apply Mapping_closed_panics; assumption.
Qed.

Lemma Mapping_again_panics_witness :
  Mapping [0%nat]
    {| specialFont := Fixtures.specialDemo; standardFont := Fixtures.standardDemo;
       concurrent := 10; wg := 0;
       sem := {| chan_cap := 10; chan_len := 0; chan_closed := true |} |}
    0xE000 0xE000
  = Panics "send on closed channel".
Proof.
  apply (Mapping_again_panics [0%nat] Fixtures.demo _ 1 0 ∅ 0%nat [] 0xE000 0xE000).
  reflexivity.
Defined.

(** C9. Two calls of [Mapping] with the same bounds, on mappers holding
    the same two fonts, that return, return tables with the same content,
    whatever the two schedules; and on a usable mapper, with an upper
    bound below the greatest [int32], the call does return under every
    schedule long enough for all its goroutines to move. *)
Theorem Mapping_deterministic (g1 g2 : GlyphOutlineMapper) (start end_ : rune) :
  specialFont g1 = specialFont g2 -> standardFont g1 = standardFont g2 ->
  int32 start -> int32 end_ ->
  (forall sched1 sched2 t1 t2 g1' g2',
     Mapping sched1 g1 start end_ = Returns (t1, g1') ->
     Mapping sched2 g2 start end_ = Returns (t2, g2') ->
     t1 = t2) /\
  (usable g1 -> end_ < MaxInt32 ->
   forall sched1, (2 * Z.to_nat (end_ + 1 - start) + 1 <= length sched1)%nat ->
     exists t1 g1', Mapping sched1 g1 start end_ = Returns (t1, g1')).
Proof.
  intros Hsf Htf Hs He. split.
  - intros sched1 sched2 t1 t2 g1' g2' H1 H2. apply map_eq. intros k.
    rewrite (Mapping_content _ _ _ _ _ _ Hs He H1), (Mapping_content _ _ _ _ _ _ Hs He H2).
    rewrite (resolve_fonts g1 g2 k Hsf Htf). reflexivity.
  - intros Hu Hend sched1 Hlen. apply Mapping_returns; assumption.
Qed.

Lemma Mapping_deterministic_witness :
  exists t1 t2 g1' g2',
    Mapping [0; 0; 0; 0; 0; 0; 0]%nat Fixtures.demo 0xE000 0xE002 = Returns (t1, g1') /\
    Mapping [9; 9; 9; 2; 0; 0; 9]%nat Fixtures.demo 0xE000 0xE002 = Returns (t2, g2') /\
    t1 = t2.
Proof.
  assert (Hs : int32 0xE000) by (unfold int32, MinInt32, MaxInt32; lia).
  assert (He : int32 0xE002) by (unfold int32, MinInt32, MaxInt32; lia).
  assert (Hu : usable Fixtures.demo) by (unfold usable; cbn; repeat split; lia).
  assert (Hend : 0xE002 < MaxInt32) by (unfold MaxInt32; lia).
  pose proof (Mapping_deterministic Fixtures.demo Fixtures.demo 0xE000 0xE002
                eq_refl eq_refl Hs He) as [Hsame Hret].
  destruct (Hret Hu Hend [0; 0; 0; 0; 0; 0; 0]%nat) as (t1 & g1' & H1); [cbn; lia|].
  destruct (Hret Hu Hend [9; 9; 9; 2; 0; 0; 9]%nat) as (t2 & g2' & H2); [cbn; lia|].
  exists t1, t2, g1', g2'. split; [exact H1|]. split; [exact H2|].
  exact (Hsame _ _ _ _ _ _ H1 H2).
Defined.

(** ** Examples *)

(** The scenario of the specification: a private-use glyph whose outline
    is that of U+4E2D resolves to U+4E2D, although U+4E2E carries the same
    outline. *)
Example MappingRune_demo :
  value (MappingRune Fixtures.demo 0xE000) = (0xE000, 0x4E2D, true).
Proof. vm_compute. reflexivity. Qed.

(** A glyph whose outline cannot be loaded resolves to nothing, the whole
    range having been scanned. *)
Example MappingRune_demo_load_error :
  value (MappingRune Fixtures.demo 0xE001) = (0, 0, false).
Proof. vm_compute. reflexivity. Qed.

(** The tolerance boundary: every point moved by exactly 10 units, then
    one abscissa moved by 11. *)
Example compareGlyphOutlines_boundary :
  compareGlyphOutlines Fixtures.triangle Fixtures.triangle_moved = true /\
  compareGlyphOutlines Fixtures.triangle
    {| Points := [Fixtures.pt 11 0; Fixtures.pt 6400 0; Fixtures.pt 3200 6400];
       Ends := [2] |} = false.
Proof. split; vm_compute; reflexivity. Qed.

(** Two schedules of one batch: every goroutine finishing before the next
    is started, and both running together before either finishes; then
    a schedule that stops one move short. *)
Example Mapping_demo_schedules :
  let table (r : outcome (gmap Z Z * GlyphOutlineMapper)) :=
    match r with
    | Returns (t, g') => Some (t, sem g')
    | _ => None
    end in
  let closed := {| chan_cap := 10; chan_len := 0; chan_closed := true |} in
  table (Mapping [0; 0; 0; 0; 0]%nat Fixtures.demo 0xDFFF 0xE000)
    = Some ({[ 0xE000 := 0x4E2D ]}, closed) /\
  table (Mapping [9; 9; 1; 0; 9]%nat Fixtures.demo 0xDFFF 0xE000)
    = Some ({[ 0xE000 := 0x4E2D ]}, closed) /\
  table (Mapping [9; 9; 1; 0]%nat Fixtures.demo 0xDFFF 0xE000) = None.
Proof. cbv zeta. split; [|split]; vm_compute; reflexivity. Qed.

(** A batch, a new limit, a batch again: [SetConcurrent] is what makes the
    second batch possible. *)
Example Mapping_demo_reopened :
  match Mapping [0; 0; 0]%nat Fixtures.demo 0xE000 0xE000 with
  | Returns (_, g1) =>
      match SetConcurrent g1 50 with
      | Returns g2 =>
          match Mapping [0; 0; 0]%nat g2 0xE000 0xE000 with
          | Returns (t, _) => t !! 0xE000 = Some 0x4E2D
          | _ => False
          end
      | _ => False
      end
  | _ => False
  end.
Proof. vm_compute. reflexivity. Qed.

(** * Further properties of the package *)

(** ** The glyph existence tester *)

Lemma hasGlyph_indexed font char bounds advance ok :
  font_Index font char <> 0%N ->
  face_GlyphBounds font {| Size := 12 |} char = (bounds, advance, ok) ->
  hasGlyph (Some font) char = ok && negb (fixed.Empty bounds && (advance =? 0)).
Proof.
  intros Hi Hb. unfold hasGlyph. rewrite Hb.
  destruct (N.eqb_spec (font_Index font char) 0) as [|_]; [contradiction|].
  assert (Hpos : (0 <? font_Index font char)%N = true) by (apply N.ltb_lt; lia).
  rewrite Hpos. cbn [andb].
  destruct ok; cbn [negb andb]; [|reflexivity].
  destruct (fixed.Empty bounds && (advance =? 0)) eqn:Hp; cbn [negb]; [reflexivity|].
  destruct ((57344 <=? char) && (char <=? 63743)); [|reflexivity].
  destruct (0 <? advance), (negb (fixed.Empty bounds)); reflexivity.
Qed.

Lemma hasGlyph_unindexed font char :
  font_Index font char = 0%N -> hasGlyph (Some font) char = false.
Proof.
  intros Hi. destruct (hasGlyph (Some font) char) eqn:H; [|reflexivity].
  apply hasGlyph_index in H. contradiction.
Qed.

(** X1. [hasGlyph] answers true exactly when the glyph index is not 0,
    the bounds query succeeds, and the glyph is not at once without extent
    and without advance; the branch for the Private Use Area changes no
    answer. *)
Theorem hasGlyph_iff (font : Font) (char : rune) :
  hasGlyph (Some font) char = true <->
  font_Index font char <> 0%N /\
  exists bounds advance,
    face_GlyphBounds font {| Size := 12 |} char = (bounds, advance, true) /\
    (fixed.Empty bounds = false \/ advance <> 0).
Proof.
  destruct (face_GlyphBounds font {| Size := 12 |} char) as [[bounds advance] ok] eqn:Hb.
  split.
  - intros H. pose proof (hasGlyph_index _ _ H) as Hi. split; [exact Hi|].
    rewrite (hasGlyph_indexed _ _ _ _ _ Hi Hb) in H.
    apply andb_true_iff in H. destruct H as [-> H].
    exists bounds, advance. split; [reflexivity|].
    apply negb_true_iff, andb_false_iff in H. destruct H as [H|H]; [left; exact H|].
    right. apply Z.eqb_neq, H.
  - intros (Hi & b & a & [= <- <- ->] & H).
    rewrite (hasGlyph_indexed _ _ _ _ _ Hi Hb). cbn [andb].
    apply negb_true_iff, andb_false_iff.
    destruct H as [H|H]; [left; exact H | right; apply Z.eqb_neq, H].
Qed.

(** ** The outline comparator *)

Lemma axis_accepted d :
  int32 d ->
  (tolerance <? (if d <? 0 then fixed.neg d else d)) = false <->
  - 10 <= d <= 10 \/ d = MinInt32.
Proof.
  unfold int32, tolerance, fixed.neg, wrap32, MinInt32, MaxInt32. intros Hd.
  rewrite Z.ltb_ge. destruct (Z.ltb_spec d 0); Z.div_mod_to_equations; lia.
Qed.

Lemma comparePoint_iff p1 p2 :
  comparePoint p1 p2 = true <->
  within_tolerance (X p1) (X p2) /\ within_tolerance (Y p1) (Y p2).
Proof.
  unfold comparePoint, within_tolerance, fixed.sub.
  pose proof (axis_accepted _ (int32_wrap32 (X p1 - X p2))) as Hx.
  pose proof (axis_accepted _ (int32_wrap32 (Y p1 - Y p2))) as Hy.
  cbv zeta.
  destruct (tolerance <? (if wrap32 (X p1 - X p2) <? 0 then _ else _));
    destruct (tolerance <? (if wrap32 (Y p1 - Y p2) <? 0 then _ else _)); cbn [orb].
  - split; [discriminate|]. intros [H _]. apply Hx in H. discriminate.
  - split; [discriminate|]. intros [H _]. apply Hx in H. discriminate.
  - split; [discriminate|]. intros [_ H]. apply Hy in H. discriminate.
  - split; [|reflexivity]. intros _. split; [apply Hx | apply Hy]; reflexivity.
Qed.

Lemma within_tolerance_sym x y : within_tolerance x y -> within_tolerance y x.
Proof.
  unfold within_tolerance, wrap32, MinInt32. intros H.
  Z.div_mod_to_equations. lia.
Qed.

Lemma comparePoint_sym p1 p2 : comparePoint p1 p2 = comparePoint p2 p1.
Proof.
  destruct (comparePoint p1 p2) eqn:H12, (comparePoint p2 p1) eqn:H21; try reflexivity.
  - apply comparePoint_iff in H12. destruct H12 as [Hx Hy].
    rewrite <- H21. symmetry. apply comparePoint_iff.
    split; apply within_tolerance_sym; assumption.
  - apply comparePoint_iff in H21. destruct H21 as [Hx Hy].
    rewrite <- H12. apply comparePoint_iff.
    split; apply within_tolerance_sym; assumption.
Qed.

Lemma comparePoints_sym points1 points2 :
  length points1 = length points2 ->
  comparePoints points1 points2 = comparePoints points2 points1.
Proof.
  revert points2. induction points1 as [|p1 points1 IH]; intros [|p2 points2] Hlen;
    cbn in *; try discriminate; [reflexivity|].
  rewrite (comparePoint_sym p1 p2), IH by congruence. reflexivity.
Qed.

Lemma compareEnds_sym ends1 ends2 :
  length ends1 = length ends2 -> compareEnds ends1 ends2 = compareEnds ends2 ends1.
Proof.
  revert ends2. induction ends1 as [|e1 ends1 IH]; intros [|e2 ends2] Hlen;
    cbn in *; try discriminate; [reflexivity|].
  rewrite (Z.eqb_sym e1 e2), IH by congruence. reflexivity.
Qed.

(** X2. The comparator is symmetric, wrap-around included: comparing
    [buf1] with [buf2] and [buf2] with [buf1] give the same answer. *)
Theorem compareGlyphOutlines_sym (buf1 buf2 : GlyphBuf) :
  compareGlyphOutlines buf1 buf2 = compareGlyphOutlines buf2 buf1.
Proof.
  unfold compareGlyphOutlines.
  rewrite (Nat.eqb_sym (length (Ends buf2))), (Nat.eqb_sym (length (Points buf2))).
  destruct (Nat.eqb_spec (length (Ends buf1)) (length (Ends buf2))) as [He|He];
    cbn [negb]; [|reflexivity].
  rewrite (compareEnds_sym _ _ He).
  destruct (compareEnds (Ends buf2) (Ends buf1)); cbn [negb]; [|reflexivity].
  destruct (Nat.eqb_spec (length (Points buf1)) (length (Points buf2))) as [Hp|Hp];
    cbn [negb]; [|reflexivity].
  apply comparePoints_sym, Hp.
Qed.

Lemma compareGlyphOutlines_accepts buf1 buf2 :
  compareGlyphOutlines buf1 buf2 = true <->
  Ends buf1 = Ends buf2 /\
  Forall2 (fun p1 p2 => within_tolerance (X p1) (X p2) /\ within_tolerance (Y p1) (Y p2))
          (Points buf1) (Points buf2).
Proof.
  unfold compareGlyphOutlines. split.
  - destruct (Nat.eqb_spec (length (Ends buf1)) (length (Ends buf2))) as [He|He];
      cbn [negb]; [|discriminate].
    destruct (compareEnds (Ends buf1) (Ends buf2)) eqn:Hends; cbn [negb]; [|discriminate].
    destruct (Nat.eqb_spec (length (Points buf1)) (length (Points buf2))) as [Hp|Hp];
      cbn [negb]; [|discriminate].
    intros H. split; [apply compareEnds_eq; assumption|].
    apply comparePoints_forall in H; [|exact Hp].
    eapply Forall2_impl; [exact H|]. intros p1 p2. apply comparePoint_iff.
  - intros [He Hp]. pose proof (Forall2_length _ _ _ Hp) as Hlen.
    rewrite He, Hlen, !Nat.eqb_refl, compareEnds_refl. cbn [negb].
    apply comparePoints_forall; [exact Hlen|].
    eapply Forall2_impl; [exact Hp|]. intros p1 p2. apply comparePoint_iff.
Qed.

(** X3. What the comparator accepts, exactly: the two outlines have the
    same list of contour ends and as many points, and on each axis every
    pair of corresponding points has a 32-bit difference between -10 and
    10, or equal to the least [int32].  So outlines with different contour
    ends, or different numbers of points, never compare equal. *)
Theorem compareGlyphOutlines_iff (buf1 buf2 : GlyphBuf) :
  compareGlyphOutlines buf1 buf2 = true <->
  Ends buf1 = Ends buf2 /\
  Forall2 (fun p1 p2 => within_tolerance (X p1) (X p2) /\ within_tolerance (Y p1) (Y p2))
          (Points buf1) (Points buf2).
Proof. exact (compareGlyphOutlines_accepts buf1 buf2). Qed.

Lemma comparePoints_coordinates points1 points2 points2' :
  Forall2 (fun p q => X p = X q /\ Y p = Y q) points2 points2' ->
  comparePoints points1 points2 = comparePoints points1 points2'.
Proof.
  intros H. revert points1.
  induction H as [|p q l l' [Hx Hy] _ IH]; intros [|p1 points1]; cbn; try reflexivity.
  unfold comparePoint. rewrite Hx, Hy, IH. reflexivity.
Qed.

(** X4. The comparator reads the contour ends and the coordinates only:
    replacing the points of an outline by points with the same
    coordinates and any other flags (on-curve or off-curve) does not
    change the answer. *)
Theorem compareGlyphOutlines_flags (buf1 buf2 buf2' : GlyphBuf) :
  Ends buf2 = Ends buf2' ->
  Forall2 (fun p q => X p = X q /\ Y p = Y q) (Points buf2) (Points buf2') ->
  compareGlyphOutlines buf1 buf2 = compareGlyphOutlines buf1 buf2'.
Proof.
  intros He Hp. unfold compareGlyphOutlines.
  rewrite <- He, <- (Forall2_length _ _ _ Hp), (comparePoints_coordinates _ _ _ Hp).
  reflexivity.
Qed.

Lemma compareGlyphOutlines_flags_witness :
  compareGlyphOutlines Fixtures.triangle Fixtures.triangle_moved =
  compareGlyphOutlines Fixtures.triangle
    {| Points := [ {| X := 10; Y := -10; Flags := 0 |};
                   {| X := 6390; Y := 10; Flags := 0 |};
                   {| X := 3210; Y := 6410; Flags := 1 |} ];
       Ends := [2] |}.
Proof.
  apply (compareGlyphOutlines_flags Fixtures.triangle Fixtures.triangle_moved);
    [reflexivity | repeat constructor].
Defined.

Lemma Forall2_translate (R : Z -> Z -> Prop) d points :
  (forall x, R x (x + d)) -> (forall y, R y y) ->
  Forall2 (fun p1 p2 => R (X p1) (X p2) /\ R (Y p1) (Y p2)) points
          (map (fun p => {| X := X p + d; Y := Y p; Flags := Flags p |}) points).
Proof.
  intros Hx Hy. induction points as [|p points IH]; cbn; constructor; auto.
Qed.

(** X5. Equality within the tolerance is not transitive: an outline with
    at least one point compares equal to itself moved by 10 units, that
    one compares equal to the outline moved by 20 units, and the outline
    does not compare equal to itself moved by 20 units. *)
Theorem compareGlyphOutlines_not_transitive (buf : GlyphBuf) :
  Points buf <> [] ->
  compareGlyphOutlines buf (translate 10 buf) = true /\
  compareGlyphOutlines (translate 10 buf) (translate 20 buf) = true /\
  compareGlyphOutlines buf (translate 20 buf) = false.
Proof.
  intros Hne.
  assert (Hw10 : forall x, within_tolerance x (x + 10)).
  { intros x. left. replace (x - (x + 10)) with (-10) by lia. vm_compute. split; congruence. }
  assert (Hw0 : forall y, within_tolerance y y).
  { intros y. left. rewrite Z.sub_diag. vm_compute. split; congruence. }
  split; [|split].
  - apply compareGlyphOutlines_accepts. split; [reflexivity|].
    apply (Forall2_translate within_tolerance); assumption.
  - apply compareGlyphOutlines_accepts. split; [reflexivity|].
    unfold translate. cbn [Points].
    assert (H : map (fun p => {| X := X p + 20; Y := Y p; Flags := Flags p |}) (Points buf)
              = map (fun p => {| X := X p + 10; Y := Y p; Flags := Flags p |})
                    (map (fun p => {| X := X p + 10; Y := Y p; Flags := Flags p |})
                         (Points buf))).
    { rewrite map_map. apply map_ext. intros p. cbn. f_equal. lia. }
    rewrite H. apply (Forall2_translate within_tolerance); assumption.
  - destruct (compareGlyphOutlines buf (translate 20 buf)) eqn:H; [|reflexivity].
    exfalso. apply compareGlyphOutlines_accepts in H. destruct H as [_ H].
    unfold translate in H. cbn [Points] in H.
    destruct (Points buf) as [|p points]; [contradiction|].
    cbn in H. inversion H as [|? ? ? ? [Hx _] _]; subst.
    cbn in Hx. unfold within_tolerance in Hx.
    replace (X p - (X p + 20)) with (-20) in Hx by lia.
    vm_compute in Hx. destruct Hx as [[Hx _]|Hx]; [apply Hx; reflexivity | discriminate].
Qed.

Lemma compareGlyphOutlines_not_transitive_witness :
  compareGlyphOutlines Fixtures.square (translate 10 Fixtures.square) = true /\
  compareGlyphOutlines (translate 10 Fixtures.square) (translate 20 Fixtures.square) = true /\
  compareGlyphOutlines Fixtures.square (translate 20 Fixtures.square) = false.
Proof.
  apply (compareGlyphOutlines_not_transitive Fixtures.square). vm_compute. congruence.
Defined.

(** ** The outline equality test *)

(** X6. [GlyphOutlineEqual] answers true exactly when both glyph indexes
    are nonzero, both outlines load and the comparator accepts them; and
    it calls the comparator at most once, on the two loaded outlines. *)
Theorem GlyphOutlineEqual_iff (g : GlyphOutlineMapper) (c j : rune) :
  (value (GlyphOutlineEqual g c j) = true <->
   font_Index (specialFont g) c <> 0%N /\ font_Index (standardFont g) j <> 0%N /\
   exists buf1 buf2,
     buf_Load (specialFont g) (fixed.I 1000) (font_Index (specialFont g) c) HintingNone
       = inl buf1 /\
     buf_Load (standardFont g) (fixed.I 1000) (font_Index (standardFont g) j) HintingNone
       = inl buf2 /\
     compareGlyphOutlines buf1 buf2 = true) /\
  (trace (GlyphOutlineEqual g c j) = [] \/
   exists buf1 buf2,
     buf_Load (specialFont g) (fixed.I 1000) (font_Index (specialFont g) c) HintingNone
       = inl buf1 /\
     buf_Load (standardFont g) (fixed.I 1000) (font_Index (standardFont g) j) HintingNone
       = inl buf2 /\
     trace (GlyphOutlineEqual g c j) = [Call_compareGlyphOutlines buf1 buf2]).
Proof.
  unfold GlyphOutlineEqual.
  destruct (N.eqb_spec (font_Index (specialFont g) c) 0) as [H1|H1]; cbn [orb].
  { split; [|left; reflexivity]. split; [discriminate | tauto]. }
  destruct (N.eqb_spec (font_Index (standardFont g) j) 0) as [H2|H2]; cbn [orb].
  { split; [|left; reflexivity]. split; [discriminate | tauto]. }
  destruct (buf_Load (specialFont g) _ _ _) as [buf1|e1].
  2: { split; [|left; reflexivity].
       split; [discriminate | intros (_ & _ & b1 & b2 & [=] & _)]. }
  destruct (buf_Load (standardFont g) _ _ _) as [buf2|e2].
  2: { split; [|left; reflexivity].
       split; [discriminate | intros (_ & _ & b1 & b2 & _ & [=] & _)]. }
  split; [|right; exists buf1, buf2; auto].
  cbn. split.
  - intros H. repeat split; try assumption. exists buf1, buf2. auto.
  - intros (_ & _ & b1 & b2 & [= <-] & [= <-] & H). exact H.
Qed.

(** ** The rune resolver *)

Lemma loop_values_In n a j : In j (loop_values n a) <-> a <= j < a + Z.of_nat n.
Proof.
  revert a. induction n as [|n IH]; intros a; cbn [loop_values In].
  - lia.
  - rewrite IH. lia.
Qed.

Lemma candidates_In j : In j candidates <-> 0x4E00 <= j <= 0x9FFF.
Proof.
  unfold candidates. rewrite loop_values_In.
  change (Z.to_nat (0x9fff - 0x4e00 + 1)) with (Z.to_nat 20992). lia.
Qed.

Lemma MappingRune_fails g c :
  snd (value (MappingRune g c)) = false ->
  hasGlyph (Some (specialFont g)) c = false \/
  forall j, 0x4E00 <= j <= 0x9FFF -> matches g c j = false.
Proof.
  rewrite MappingRune_value.
  destruct (hasGlyph (Some (specialFont g)) c); [|auto].
  destruct (value (scan g c candidates true)) as [[sr st] ok] eqn:H. cbn.
  intros ->. right. intros j Hj.
  apply scan_not_found in H. destruct H as (_ & _ & H).
  rewrite Forall_forall in H.
  rewrite <- (candidate_rune j Hj). apply H, list_elem_of_In, candidates_In, Hj.
Qed.

(** X7. [MappingRune] reports success exactly when the special font has a
    usable glyph for the codepoint and some candidate of
    [0x4E00, 0x9FFF] has a usable standard glyph whose outline compares
    equal; when it reports failure, the two codepoints it returns are
    zero. *)
Theorem MappingRune_success_iff (g : GlyphOutlineMapper) (c : rune) :
  (snd (value (MappingRune g c)) = true <->
   hasGlyph (Some (specialFont g)) c = true /\
   exists j, 0x4E00 <= j <= 0x9FFF /\
     hasGlyph (Some (standardFont g)) j = true /\
     value (GlyphOutlineEqual g c j) = true) /\
  (snd (value (MappingRune g c)) = false -> value (MappingRune g c) = (0, 0, false)).
Proof.
  split; [split|].
  - destruct (value (MappingRune g c)) as [[sr st] ok] eqn:H. cbn. intros ->.
    apply MappingRune_found in H. destruct H as (_ & Hr & Hs & Hm & _).
    split; [exact Hs|]. exists st. split; [exact Hr|].
    unfold matches in Hm. apply andb_true_iff in Hm. exact Hm.
  - intros (Hs & j & Hj & Hg & He).
    destruct (snd (value (MappingRune g c))) eqn:H; [reflexivity|]. exfalso.
    apply MappingRune_fails in H. destruct H as [H|H]; [congruence|].
    specialize (H j Hj). unfold matches in H. rewrite Hg, He in H. discriminate.
  - rewrite MappingRune_value.
    destruct (hasGlyph (Some (specialFont g)) c); [|reflexivity].
    destruct (value (scan g c candidates true)) as [[sr st] ok] eqn:H. cbn.
    intros ->. apply scan_not_found in H. destruct H as (-> & -> & _). reflexivity.
Qed.

Lemma hasGlyph_chars_app tr1 tr2 :
  hasGlyph_chars (tr1 ++ tr2) = hasGlyph_chars tr1 ++ hasGlyph_chars tr2.
Proof. unfold hasGlyph_chars. apply omap_app. Qed.

Lemma hasGlyph_chars_equal g c j :
  hasGlyph_chars (trace (enter (Call_GlyphOutlineEqual c j) (GlyphOutlineEqual g c j))) = [].
Proof.
  rewrite trace_enter. unfold GlyphOutlineEqual.
  destruct (_ || _); [reflexivity|].
  destruct (buf_Load (specialFont g) _ _ _); [|reflexivity].
  destruct (buf_Load (standardFont g) _ _ _); reflexivity.
Qed.

(** The candidates a scan tests: those before the first match and the
    match, or all of them. *)
Lemma scan_tested g c js ok :
  (forall pre j post,
     js = pre ++ j :: post ->
     Forall (fun j' => matches g c (wrap32 j') = false) pre ->
     matches g c (wrap32 j) = true ->
     hasGlyph_chars (trace (scan g c js ok)) = map wrap32 (pre ++ [j])) /\
  (Forall (fun j' => matches g c (wrap32 j') = false) js ->
   hasGlyph_chars (trace (scan g c js ok)) = map wrap32 js).
Proof.
  revert ok. induction js as [|j0 js IH]; intros ok.
  { split; [|reflexivity]. intros [|] ? ? H; discriminate H. }
  assert (Hstep : hasGlyph_chars (trace (scan g c (j0 :: js) ok)) =
            wrap32 j0 :: if matches g c (wrap32 j0) then []
                         else hasGlyph_chars (trace (scan g c js false))).
  { cbn [scan]. rewrite trace_bind, hasGlyph_chars_app. unfold call at 1 2.
    cbn [trace value fst snd]. unfold matches.
    destruct (hasGlyph (Some (standardFont g)) (wrap32 j0)); cbn [negb andb].
    - rewrite trace_bind, hasGlyph_chars_app, hasGlyph_chars_equal, value_enter.
      destruct (value (GlyphOutlineEqual g c (wrap32 j0))); reflexivity.
    - reflexivity. }
  rewrite Hstep. split.
  - intros [|p pre] j post Hjs Hpre Hj.
    + injection Hjs as -> ->. rewrite Hj. reflexivity.
    + injection Hjs as -> ->. apply Forall_cons in Hpre. destruct Hpre as [Hp Hpre].
      rewrite Hp. cbn [map app]. f_equal.
      apply (proj1 (IH false) pre j post); auto.
  - intros H. apply Forall_cons in H. destruct H as [Hp H].
    rewrite Hp. cbn [map]. f_equal. apply (proj2 (IH false)), H.
Qed.

Lemma loop_values_prefix n a pre x post :
  loop_values n a = pre ++ x :: post ->
  pre ++ [x] = loop_values (S (length pre)) a.
Proof.
  revert n a. induction pre as [|p pre IH]; intros [|n] a H; cbn in H; try discriminate.
  - injection H as <- _. reflexivity.
  - injection H as <- H. cbn. f_equal. apply (IH _ _ H).
Qed.

Lemma map_wrap32_candidates js :
  Forall (fun j => 0x4E00 <= j <= 0x9FFF) js -> map wrap32 js = js.
Proof.
  induction 1 as [|j js Hj _ IH]; cbn; [reflexivity|].
  rewrite candidate_rune, IH by exact Hj. reflexivity.
Qed.

Lemma MappingRune_trace g c :
  trace (MappingRune g c) =
  Call_hasGlyph (Some (specialFont g)) c ::
  if hasGlyph (Some (specialFont g)) c then trace (scan g c candidates true) else [].
Proof.
  unfold MappingRune. rewrite trace_bind. unfold call at 1 2.
  cbn [value trace fst snd app].
  destruct (hasGlyph (Some (specialFont g)) c); reflexivity.
Qed.

(** X8. The scan tests the candidates in ascending order, each once, and
    stops at the match: the calls of [hasGlyph] made by a successful
    [MappingRune] are on [c], then on [0x4E00], ..., up to the codepoint
    returned and no further; those of a failed one are on [c] alone when
    the special font has no usable glyph, and else on [c] and then on the
    whole range. *)
Theorem MappingRune_tested (g : GlyphOutlineMapper) (c : rune) :
  hasGlyph_chars (trace (MappingRune g c)) =
  match value (MappingRune g c) with
  | (_, st, true) => c :: loop_values (Z.to_nat (st - 0x4E00 + 1)) 0x4E00
  | (_, _, false) =>
      if hasGlyph (Some (specialFont g)) c then c :: candidates else [c]
  end.
Proof.
  assert (Hall : Forall (fun j => 0x4E00 <= j <= 0x9FFF) candidates).
  { apply Forall_forall. intros j Hj. apply candidates_In, list_elem_of_In, Hj. }
  destruct (value (MappingRune g c)) as [[sr st] ok] eqn:Hv.
  pose proof Hv as Hv'. rewrite MappingRune_value in Hv'.
  rewrite MappingRune_trace.
  change (hasGlyph_chars (?e :: ?tr)) with (c :: hasGlyph_chars tr).
  destruct (hasGlyph (Some (specialFont g)) c) eqn:Hs.
  2: { injection Hv' as <- <- <-. reflexivity. }
  assert (Hf : value (scan g c candidates false) = (sr, st, ok)).
  { rewrite candidates_cons, scan_cons in *. exact Hv'. }
  destruct ok.
  - apply scan_found in Hf.
    destruct Hf as (pre & j & post & Hsplit & _ & -> & Hj & Hpre).
    rewrite (proj1 (scan_tested g c candidates true) pre j post Hsplit Hpre Hj).
    pose proof (candidates_split _ _ _ Hsplit) as [Hr _].
    assert (Hsub : Forall (fun j => 0x4E00 <= j <= 0x9FFF) (pre ++ [j])).
    { rewrite Hsplit in Hall. apply Forall_app in Hall. destruct Hall as [Hp Hq].
      apply Forall_app. split; [exact Hp|]. apply Forall_cons in Hq.
      constructor; [tauto | constructor]. }
    rewrite (map_wrap32_candidates _ Hsub), (candidate_rune j Hr).
    unfold candidates in Hsplit.
    rewrite (loop_values_prefix _ _ _ _ _ Hsplit).
    apply loop_values_split in Hsplit. destruct Hsplit as (Hx & _ & _).
    assert (Hn : Z.to_nat (j - 0x4E00 + 1) = S (length pre)) by lia.
    rewrite Hn. reflexivity.
  - apply scan_not_found in Hf. destruct Hf as (_ & _ & Hf).
    rewrite (proj2 (scan_tested g c candidates true) Hf).
    rewrite (map_wrap32_candidates _ Hall). reflexivity.
Qed.

(** X9. Neither a change of limit nor a batch changes what the resolver
    answers: after [SetConcurrent], and after a [Mapping] that returned,
    [MappingRune] makes the same calls and returns the same result as
    before. *)
Theorem MappingRune_unchanged (g g' : GlyphOutlineMapper) (c : rune) :
  (exists n, SetConcurrent g n = Returns g') \/
  (exists sched start end_ t, Mapping sched g start end_ = Returns (t, g')) ->
  MappingRune g' c = MappingRune g c.
Proof.
  intros [[n H]|(sched & start & end_ & t & H)].
  - unfold SetConcurrent in H. destruct (n <? 0); [discriminate|].
    injection H as <-. apply MappingRune_fonts; reflexivity.
  - unfold Mapping in H. destruct (run sched g end_ _) as [[t0 b]| | |]; try discriminate.
    injection H as _ <-. apply MappingRune_fonts; reflexivity.
Qed.

Lemma MappingRune_unchanged_witness :
  MappingRune
    {| specialFont := Fixtures.specialDemo; standardFont := Fixtures.standardDemo;
       concurrent := 50; wg := 0; sem := make_chan 50 |} 0xE000
  = MappingRune Fixtures.demo 0xE000.
Proof.
  apply (MappingRune_unchanged Fixtures.demo). left. exists 50. reflexivity.
Defined.

(** ** The batch mapper *)

Lemma resolve_Some g k v :
  resolve g k = Some v <-> value (MappingRune g k) = (k, v, true).
Proof.
  unfold resolve. destruct (value (MappingRune g k)) as [[sr st] ok] eqn:H.
  destruct ok.
  - pose proof (MappingRune_found _ _ _ _ H) as [-> _].
    split; [intros [= ->]; reflexivity | intros [= ->]; reflexivity].
  - split; discriminate.
Qed.

Lemma Mapping_empty n sched g start end_ :
  end_ < start -> chan_closed (sem g) = false -> wg g = 0%nat ->
  Mapping (n :: sched) g start end_ =
  Returns (∅, {| specialFont := specialFont g; standardFont := standardFont g;
                 concurrent := concurrent g; wg := 0; sem := chan_close (sem g) |}).
Proof.
  intros Hlt Hopen Hwg. unfold Mapping. cbn [run running loop_i]. rewrite lookup_nil.
  unfold main_blocked. cbn [loop_i b_sem b_wg results]. rewrite Hopen, Hwg.
  destruct (Z.leb_spec start end_) as [Hle|_]; [lia|].
  cbn [Nat.ltb Nat.leb]. rewrite materialize_id. reflexivity.
Qed.

(** X10. A batch over an empty range, [start > end], on a mapper whose
    semaphore is open and whose wait group is at rest: the first move of
    [Mapping] returns the empty table, starts no goroutine, and leaves the
    semaphore closed. *)
Theorem Mapping_empty_range (n : nat) (sched : list nat) (g : GlyphOutlineMapper)
    (start end_ : rune) :
  end_ < start -> chan_closed (sem g) = false -> wg g = 0%nat ->
  Mapping (n :: sched) g start end_ =
  Returns (∅, {| specialFont := specialFont g; standardFont := standardFont g;
                 concurrent := concurrent g; wg := 0; sem := chan_close (sem g) |}).
Proof. apply Mapping_empty. Qed.

Lemma Mapping_empty_range_witness :
  Mapping [0%nat] Fixtures.demo 1 0 =
  Returns (∅, {| specialFont := Fixtures.specialDemo; standardFont := Fixtures.standardDemo;
                 concurrent := 10; wg := 0;
                 sem := {| chan_cap := 10; chan_len := 0; chan_closed := true |} |}).
Proof.
  apply (Mapping_empty_range 0 [] Fixtures.demo 1 0); [lia | reflexivity | reflexivity].
Defined.

(** X11. The table a batch returns has an entry [k -> v] exactly when [k]
    is in [start, end] and [MappingRune] on [k] returns [(k, v, true)]:
    every codepoint of the range that resolves is there, under its own
    key, and nothing else is. *)
Theorem Mapping_entries (sched : list nat) (g g' : GlyphOutlineMapper)
    (start end_ : rune) (t : gmap Z Z) :
  int32 start -> int32 end_ ->
  Mapping sched g start end_ = Returns (t, g') ->
  forall k v, t !! k = Some v <->
              start <= k <= end_ /\ value (MappingRune g k) = (k, v, true).
Proof.
  intros Hs He H k v. rewrite (Mapping_content _ _ _ _ _ _ Hs He H).
  case_decide as Hk.
  - rewrite resolve_Some. tauto.
  - split; [discriminate | tauto].
Qed.

Lemma Mapping_entries_witness :
  ({[ 0xE000 := 0x4E2D ]} : gmap Z Z) !! 0xE000 = Some 0x4E2D <->
  0xDFFF <= 0xE000 <= 0xE000 /\
  value (MappingRune Fixtures.demo 0xE000) = (0xE000, 0x4E2D, true).
Proof.
  apply (Mapping_entries [9; 9; 0; 0; 9]%nat Fixtures.demo
           {| specialFont := Fixtures.specialDemo; standardFont := Fixtures.standardDemo;
              concurrent := 10; wg := 0;
              sem := {| chan_cap := 10; chan_len := 0; chan_closed := true |} |}
           0xDFFF 0xE000).
  - unfold int32, MinInt32, MaxInt32. lia.
  - unfold int32, MinInt32, MaxInt32. lia.
  - reflexivity.
Defined.

(** X12. A returned table has at most one entry per codepoint of the
    range: its size is at most [end - start + 1], and 0 for an empty
    range. *)
Theorem Mapping_size (sched : list nat) (g g' : GlyphOutlineMapper)
    (start end_ : rune) (t : gmap Z Z) :
  int32 start -> int32 end_ ->
  Mapping sched g start end_ = Returns (t, g') ->
  (size t <= Z.to_nat (end_ - start + 1))%nat.
Proof.
  intros Hs He H.
  pose proof (Mapping_content _ _ _ _ _ _ Hs He H) as Hc.
  rewrite <- (size_dom (D := gset Z) t).
  rewrite <- (length_seqZ start (end_ - start + 1)).
  rewrite <- (size_list_to_set (C := gset Z) (seqZ start (end_ - start + 1)))
    by apply NoDup_seqZ.
  apply subseteq_size. intros k Hk.
  apply elem_of_dom in Hk. destruct Hk as [v Hv]. rewrite Hc in Hv.
  case_decide as Hr; [|discriminate].
  apply elem_of_list_to_set, list_elem_of_lookup.
  exists (Z.to_nat (k - start)). apply lookup_seqZ. lia.
Qed.

Lemma Mapping_size_witness :
  (size ({[ 0xE000%Z := 0x4E2D%Z ]} : gmap Z Z) <= Z.to_nat (0xE000 - 0xDFFF + 1))%nat.
Proof.
  apply (Mapping_size [9; 9; 0; 0; 9]%nat Fixtures.demo
           {| specialFont := Fixtures.specialDemo; standardFont := Fixtures.standardDemo;
              concurrent := 10; wg := 0;
              sem := {| chan_cap := 10; chan_len := 0; chan_closed := true |} |}
           0xDFFF 0xE000).
  - unfold int32, MinInt32, MaxInt32. lia.
  - unfold int32, MinInt32, MaxInt32. lia.
  - reflexivity.
Defined.

(** The states kept by [visited] are those [run] goes through: a call
    that returns does so from the last of them. *)
Lemma visited_run sched g end_ b t b' :
  run sched g end_ b = Returns (t, b') ->
  exists b0, b0 ∈ visited sched g end_ b /\
             t = materialize (results b0) /\ b' = close_sem b0.
Proof.
  revert b. induction sched as [|n sched IH]; intros b; [discriminate|].
  cbn [run visited].
  assert (Hnext : forall b1, run sched g end_ b1 = Returns (t, b') ->
            exists b0, b0 ∈ b :: visited sched g end_ b1 /\
                       t = materialize (results b0) /\ b' = close_sem b0).
  { intros b1 H. destruct (IH _ H) as (b0 & Hin & Ht & Hb).
    exists b0. split; [right; exact Hin | auto]. }
  destruct (running b !! n) as [i|]; [apply Hnext|].
  destruct (main_blocked end_ b).
  { destruct (running b) as [|i rest]; [discriminate | apply Hnext]. }
  destruct (loop_i b <=? end_).
  { destruct (chan_closed (b_sem b)); [discriminate | apply Hnext]. }
  destruct (chan_closed (b_sem b)); [discriminate|].
  intros [= <- <-]. exists b. split; [left | auto].
Qed.

Lemma visited_bounded cap sched g end_ b :
  chan_cap (b_sem b) = cap ->
  chan_len (b_sem b) = length (running b) ->
  (chan_len (b_sem b) <= cap)%nat ->
  Forall (fun b' => (length (running b') <= cap)%nat) (visited sched g end_ b).
Proof.
  revert b. induction sched as [|n sched IH]; intros b Hcap Hlen Hle.
  { cbn. constructor; [lia | constructor]. }
  cbn [visited]. constructor; [lia|].
  assert (Hfin : forall m i, running b !! m = Some i ->
            Forall (fun b' => (length (running b') <= cap)%nat)
                   (visited sched g end_ (finish g m i b))).
  { intros m i Hm. pose proof (lookup_lt_Some _ _ _ Hm) as Hlt.
    destruct (finish_fields g m i b) as (_ & Hr & _ & Hs).
    apply IH; rewrite Hs, ?Hr, ?length_delete by eauto; cbn; lia. }
  destruct (running b !! n) as [i|] eqn:Hn; [apply (Hfin n i Hn)|].
  destruct (main_blocked end_ b) eqn:Hblocked.
  { destruct (running b) as [|i rest] eqn:Hrun; [constructor|].
    rewrite <- Hrun in *. apply (Hfin 0%nat i). rewrite Hrun. reflexivity. }
  unfold main_blocked in Hblocked.
  destruct (loop_i b <=? end_); [|constructor].
  destruct (chan_closed (b_sem b)); [constructor|].
  cbn [negb andb] in Hblocked. apply negb_false_iff, Nat.ltb_lt in Hblocked.
  apply IH; unfold dispatch; cbn; rewrite ?length_app; cbn; lia.
Qed.

(** X13. The semaphore bounds the parallelism: on a mapper whose
    semaphore is empty, in every state a batch goes through under any
    schedule, the number of goroutines running is at most the capacity of
    the semaphore. *)
Theorem Mapping_bounded (sched : list nat) (g : GlyphOutlineMapper) (start end_ : rune) :
  chan_len (sem g) = 0%nat ->
  Forall (fun b => (length (running b) <= chan_cap (sem g))%nat)
         (visited sched g end_ (first_batch g start)).
Proof.
  intros Hlen. apply visited_bounded; cbn; lia.
Qed.

Lemma Mapping_bounded_witness :
  let g := {| specialFont := Fixtures.specialDemo; standardFont := Fixtures.standardDemo;
              concurrent := 2; wg := 0; sem := make_chan 2 |} in
  Forall (fun b => (length (running b) <= 2)%nat)
         (visited [9; 9; 9; 9; 1; 9; 9; 0; 0; 0; 9]%nat g 0xDFF0 (first_batch g 0xDFEC)).
Proof.
  cbv zeta.
  apply (Mapping_bounded [9; 9; 9; 9; 1; 9; 9; 0; 0; 0; 9]%nat
           {| specialFont := Fixtures.specialDemo; standardFont := Fixtures.standardDemo;
              concurrent := 2; wg := 0; sem := make_chan 2 |} 0xDFEC 0xDFF0).
  reflexivity.
Defined.

Lemma run_live sched g end_ b :
  chan_closed (b_sem b) = false -> (0 < chan_cap (b_sem b))%nat ->
  chan_len (b_sem b) = length (running b) -> b_wg b = length (running b) ->
  (exists r, run sched g end_ b = Returns r) \/ run sched g end_ b = OutOfSchedule.
Proof.
  revert b. induction sched as [|n sched IH]; intros b Hopen Hroom Hlen Hwg; [auto|].
  cbn [run].
  assert (Hfin : forall m i, running b !! m = Some i ->
            (exists r, run sched g end_ (finish g m i b) = Returns r) \/
            run sched g end_ (finish g m i b) = OutOfSchedule).
  { intros m i Hm. pose proof (lookup_lt_Some _ _ _ Hm) as Hlt.
    destruct (finish_fields g m i b) as (_ & Hr & Hw & Hs).
    apply IH; rewrite ?Hs, ?Hr, ?Hw, ?length_delete by eauto; cbn;
      try assumption; lia. }
  destruct (running b !! n) as [i|] eqn:Hn; [apply (Hfin n i Hn)|].
  unfold main_blocked. rewrite Hopen, Hlen, Hwg. cbn [negb andb].
  destruct (loop_i b <=? end_).
  - destruct (Nat.ltb_spec (length (running b)) (chan_cap (b_sem b))) as [Hlt|Hge];
      cbn [negb].
    + apply IH; unfold dispatch; cbn; rewrite ?length_app; cbn; try assumption; lia.
    + destruct (running b) as [|i rest] eqn:Hrun; [cbn in Hge; lia|].
      rewrite <- Hrun in *. apply (Hfin 0%nat i). rewrite Hrun. reflexivity.
  - destruct (Nat.ltb_spec 0 (length (running b))) as [Hlt|Hge].
    + destruct (running b) as [|i rest] eqn:Hrun; [cbn in Hlt; lia|].
      rewrite <- Hrun in *. apply (Hfin 0%nat i). rewrite Hrun. reflexivity.
    + left. eexists. reflexivity.
Qed.

(** X14. A batch on a usable mapper neither panics nor deadlocks, under
    any schedule and for any bounds: the call returns, or the schedule
    given was too short for it to return. *)
Theorem Mapping_no_deadlock (sched : list nat) (g : GlyphOutlineMapper) (start end_ : rune) :
  usable g ->
  (exists t g', Mapping sched g start end_ = Returns (t, g')) \/
  Mapping sched g start end_ = OutOfSchedule.
Proof.
  intros (Hwg & Hopen & Hlen & Hroom). unfold Mapping.
  destruct (run_live sched g end_ (first_batch g start)) as [[[t b] H]|H];
    try assumption.
  - left. unfold first_batch in H. rewrite H. eauto.
  - right. unfold first_batch in H. rewrite H. reflexivity.
Qed.

Lemma Mapping_no_deadlock_witness :
  (exists t g', Mapping [9; 0; 0; 9; 9]%nat Fixtures.demo 0xDFFF 0xE000 = Returns (t, g')) \/
  Mapping [9; 0; 0; 9; 9]%nat Fixtures.demo 0xDFFF 0xE000 = OutOfSchedule.
Proof.
  apply (Mapping_no_deadlock [9; 0; 0; 9; 9]%nat Fixtures.demo 0xDFFF 0xE000).
  unfold usable. cbn. repeat split; lia.
Defined.

(** The states of [visited] from [first_batch] are those of the call of
    [Mapping]: the table returned is read off the last of them. *)
Lemma Mapping_visited sched g start end_ t g' :
  Mapping sched g start end_ = Returns (t, g') ->
  exists b0, b0 ∈ visited sched g end_ (first_batch g start) /\
             t = materialize (results b0) /\ sem g' = chan_close (b_sem b0).
Proof.
  unfold Mapping. fold (first_batch g start).
  destruct (run sched g end_ (first_batch g start)) as [[t0 b]| | |] eqn:H; try discriminate.
  intros [= <- <-]. destruct (visited_run _ _ _ _ _ _ H) as (b0 & Hin & Ht & Hb).
  exists b0. subst b. auto.
Qed.

(** X15. A batch, then [SetConcurrent] with a positive limit, then a
    batch again: the change of limit returns a mapper on which the next
    batch, with an upper bound below the greatest [int32], returns under
    every schedule long enough, never running more goroutines at once
    than the new limit. *)
Theorem Mapping_after_SetConcurrent (sched : list nat) (g g1 : GlyphOutlineMapper)
    (start end_ : rune) (t : gmap Z Z) (n : Z) :
  Mapping sched g start end_ = Returns (t, g1) ->
  0 < n ->
  exists g2, SetConcurrent g1 n = Returns g2 /\
    forall sched' start' end_',
      int32 start' -> end_' < MaxInt32 ->
      (2 * Z.to_nat (end_' + 1 - start') + 1 <= length sched')%nat ->
      (exists t' g3, Mapping sched' g2 start' end_' = Returns (t', g3)) /\
      Forall (fun b => Z.of_nat (length (running b)) <= n)
             (visited sched' g2 end_' (first_batch g2 start')).
Proof.
  intros H Hn. apply Mapping_returns_closed in H. destruct H as [_ Hwg].
  destruct (SetConcurrent_reopens g1 n Hn Hwg) as (g2 & Hset & Hu & _ & Hcap & _ & _).
  exists g2. split; [exact Hset|]. intros sched' start' end_' Hs He Hlen. split.
  - apply Mapping_returns; assumption.
  - destruct Hu as (_ & _ & Hl & _).
    eapply Forall_impl;
      [apply (visited_bounded (chan_cap (sem g2)) sched' g2 end_' (first_batch g2 start'));
       cbn; lia|].
    intros b Hb. cbv beta in Hb. lia.
Qed.

Lemma Mapping_after_SetConcurrent_witness :
  exists g2,
    SetConcurrent
      {| specialFont := Fixtures.specialDemo; standardFont := Fixtures.standardDemo;
         concurrent := 10; wg := 0;
         sem := {| chan_cap := 10; chan_len := 0; chan_closed := true |} |} 50
      = Returns g2 /\
    forall sched' start' end_',
      int32 start' -> end_' < MaxInt32 ->
      (2 * Z.to_nat (end_' + 1 - start') + 1 <= length sched')%nat ->
      (exists t' g3, Mapping sched' g2 start' end_' = Returns (t', g3)) /\
      Forall (fun b => Z.of_nat (length (running b)) <= 50)
             (visited sched' g2 end_' (first_batch g2 start')).
Proof.
  apply (Mapping_after_SetConcurrent [0%nat] Fixtures.demo _ 1 0 ∅ 50);
    [reflexivity | lia].
Defined.

(** X16. With a limit of zero the semaphore never has room: after
    [SetConcurrent(0)] a batch over a range that is not empty deadlocks at
    its first move under every schedule, no goroutine being started, while
    a batch over an empty range still returns the empty table. *)
Theorem Mapping_zero_limit (g : GlyphOutlineMapper) (n : nat) (sched : list nat)
    (start end_ : rune) :
  wg g = 0%nat ->
  exists g0, SetConcurrent g 0 = Returns g0 /\
    (start <= end_ -> Mapping (n :: sched) g0 start end_ = Deadlock) /\
    (end_ < start -> exists g', Mapping (n :: sched) g0 start end_ = Returns (∅, g')).
Proof.
  intros Hwg. eexists. split; [reflexivity|]. split.
  - intros Hle. unfold Mapping. cbn [run running loop_i]. rewrite lookup_nil.
    unfold main_blocked. cbn. destruct (Z.leb_spec start end_); [reflexivity | lia].
  - intros Hlt. eexists. apply Mapping_empty; [exact Hlt | reflexivity | exact Hwg].
Qed.

Lemma Mapping_zero_limit_witness :
  exists g0, SetConcurrent Fixtures.demo 0 = Returns g0 /\
    (0xE000 <= 0xE000 -> Mapping [0%nat] g0 0xE000 0xE000 = Deadlock) /\
    (0xE000 < 0xE000 -> exists g', Mapping [0%nat] g0 0xE000 0xE000 = Returns (∅, g')).
Proof.
  apply (Mapping_zero_limit Fixtures.demo 0 [] 0xE000 0xE000). reflexivity.
Defined.

(** X17. With the greatest [int32] as upper bound the loop variable wraps
    around instead of passing the bound: under no schedule does the call
    return. *)
Theorem Mapping_max_end (sched : list nat) (g : GlyphOutlineMapper) (start : rune) :
  int32 start ->
  match Mapping sched g start MaxInt32 with
  | Returns _ => False
  | _ => True
  end.
Proof.
  intros Hs. unfold Mapping.
  destruct (run sched g MaxInt32 _) as [[t b]| | |] eqn:H; try exact I.
  eapply (run_no_end g MaxInt32 sched); [reflexivity | | exact H]. exact Hs.
Qed.

Lemma Mapping_max_end_witness :
  match Mapping [9; 0; 9; 0; 9; 0]%nat Fixtures.demo (MaxInt32 - 1) MaxInt32 with
  | Returns _ => False
  | _ => True
  end.
Proof.
  apply (Mapping_max_end [9; 0; 9; 0; 9; 0]%nat Fixtures.demo (MaxInt32 - 1)).
  unfold int32, MinInt32, MaxInt32. lia.
Defined.

(** X18. The constructor and the batch together: on the mapper that
    [NewGlyphOutlineMapper] returns, a first batch with an upper bound
    below the greatest [int32] returns under every schedule long enough,
    with at most 10 goroutines running at once, and its table holds
    exactly the codepoints of the range that [MappingRune] resolves. *)
Theorem Mapping_on_new_mapper (Parse : list Byte.byte -> Font + error)
    (specialFontData standardFontData : list Byte.byte) (g : GlyphOutlineMapper)
    (sched : list nat) (start end_ : rune) :
  NewGlyphOutlineMapper Parse specialFontData standardFontData = (Some g, None) ->
  int32 start -> int32 end_ -> end_ < MaxInt32 ->
  (2 * Z.to_nat (end_ + 1 - start) + 1 <= length sched)%nat ->
  exists t g',
    Mapping sched g start end_ = Returns (t, g') /\
    (forall k v, t !! k = Some v <->
                 start <= k <= end_ /\ value (MappingRune g k) = (k, v, true)) /\
    Forall (fun b => (length (running b) <= 10)%nat)
           (visited sched g end_ (first_batch g start)).
Proof.
  intros Hnew Hs He Hend Hlen.
  assert (Hg : usable g /\ chan_cap (sem g) = 10%nat).
  { unfold NewGlyphOutlineMapper in Hnew.
    destruct (Parse specialFontData); [|discriminate].
    destruct (Parse standardFontData); [|discriminate].
    injection Hnew as <-. unfold usable. cbn. repeat split; lia. }
  destruct Hg as [Hu Hcap].
  destruct (Mapping_returns sched g start end_ Hu Hs Hend Hlen) as (t & g' & H).
  exists t, g'. split; [exact H|]. split.
  - intros k v. rewrite (Mapping_content _ _ _ _ _ _ Hs He H).
    case_decide as Hk; [rewrite resolve_Some; tauto | split; [discriminate | tauto]].
  - destruct Hu as (_ & _ & Hl & _). apply visited_bounded; cbn; lia.
Qed.

Lemma Mapping_on_new_mapper_witness :
  exists t g',
    Mapping [9; 9; 0; 0; 9]%nat Fixtures.demo 0xDFFF 0xE000 = Returns (t, g') /\
    (forall k v, t !! k = Some v <->
                 0xDFFF <= k <= 0xE000 /\
                 value (MappingRune Fixtures.demo k) = (k, v, true)) /\
    Forall (fun b => (length (running b) <= 10)%nat)
           (visited [9; 9; 0; 0; 9]%nat Fixtures.demo 0xE000
                    (first_batch Fixtures.demo 0xDFFF)).
Proof.
  apply (Mapping_on_new_mapper Fixtures.demoParse [Byte.x01] [Byte.x02] Fixtures.demo
           [9; 9; 0; 0; 9]%nat 0xDFFF 0xE000).
  - reflexivity.
  - unfold int32, MinInt32, MaxInt32. lia.
  - unfold int32, MinInt32, MaxInt32. lia.
  - unfold MaxInt32. lia.
  - cbn. lia.
Defined.

(** ** The variant of package [main] *)

(** Closes the goals on an answer and its reason once both are known. *)
Ltac settle_reason :=
  repeat split;
  first [ reflexivity | discriminate
        | let H := fresh in intros H; discriminate H ].

(** X19. [hasGlyph] of package [main] gives the same answer as that of
    package [mapper].  Its reason for the Private Use Area without data is
    never given, and its reason for a private-use glyph known by its
    index alone is given only for a glyph with an empty bounding box and a
    negative advance. *)
Theorem main_hasGlyph_agrees (font : option Font) (char : rune) :
  fst (main.hasGlyph font char) = hasGlyph font char /\
  snd (main.hasGlyph font char) <> "私有区域无数据"%string /\
  (snd (main.hasGlyph font char) = "私有区域有索引"%string ->
   exists font0 bounds advance,
     font = Some font0 /\
     face_GlyphBounds font0 {| Size := 12 |} char = (bounds, advance, true) /\
     fixed.Empty bounds = true /\ advance < 0).
Proof.
  destruct font as [font|]; [|cbn; settle_reason].
  unfold main.hasGlyph, hasGlyph.
  destruct (face_GlyphBounds font {| Size := 12 |} char) as [[bounds advance] ok] eqn:Hb.
  destruct (N.eqb_spec (font_Index font char) 0) as [Hi|Hi];
    destruct (Z.eqb_spec char 0) as [Hc|Hc]; cbn [andb negb];
    try (settle_reason).
  - (* index 0 at codepoint 0, which is no private-use codepoint *)
    subst char. rewrite Hi. cbn.
    destruct ok; cbn; [|settle_reason].
    destruct (fixed.Empty bounds && (advance =? 0)); settle_reason.
  - assert (Hpos : (0 <? font_Index font char)%N = true) by (apply N.ltb_lt; lia).
    rewrite Hpos. subst char. cbn.
    destruct ok; cbn [negb]; [|settle_reason].
    destruct (fixed.Empty bounds && (advance =? 0)); settle_reason.
  - assert (Hpos : (0 <? font_Index font char)%N = true) by (apply N.ltb_lt; lia).
    rewrite Hpos.
    destruct ok; cbn [negb]; [|settle_reason].
    destruct (fixed.Empty bounds) eqn:He, (Z.eqb_spec advance 0) as [Ha|Ha]; cbn [andb negb];
      try (settle_reason).
    + destruct ((57344 <=? char) && (char <=? 63743)); [|settle_reason].
      destruct (Z.ltb_spec 0 advance) as [Hlt|Hge]; [settle_reason|].
      split; [reflexivity|]. split; [discriminate|]. intros _.
      exists font, bounds, advance. repeat split; try assumption. lia.
    + destruct ((57344 <=? char) && (char <=? 63743)); [|settle_reason].
      destruct (0 <? advance); settle_reason.
    + destruct ((57344 <=? char) && (char <=? 63743)); [|settle_reason].
      destruct (0 <? advance); settle_reason.
Qed.

(** X20. [GlyphOutlineEqual] of package [main] gives the same answer as
    that of package [mapper], and it returns an error exactly when both
    glyph indexes are nonzero and an outline fails to load: the error of
    the special font when its outline fails, that of the standard font
    when the special outline loads and the standard one fails.  An error
    always comes with the answer false. *)
Theorem main_GlyphOutlineEqual_agrees (g : GlyphOutlineMapper) (c j : rune) :
  fst (main.GlyphOutlineEqual g c j) = value (GlyphOutlineEqual g c j) /\
  (forall err, snd (main.GlyphOutlineEqual g c j) = Some err <->
     font_Index (specialFont g) c <> 0%N /\ font_Index (standardFont g) j <> 0%N /\
     ((exists e,
         buf_Load (specialFont g) (fixed.I 1000) (font_Index (specialFont g) c) HintingNone
           = inr e /\
         err = Errorf_w "加载专有字体失败: " e) \/
      (exists buf1 e,
         buf_Load (specialFont g) (fixed.I 1000) (font_Index (specialFont g) c) HintingNone
           = inl buf1 /\
         buf_Load (standardFont g) (fixed.I 1000) (font_Index (standardFont g) j) HintingNone
           = inr e /\
         err = Errorf_w "加载标准字体失败: " e))) /\
  (forall err, snd (main.GlyphOutlineEqual g c j) = Some err ->
     fst (main.GlyphOutlineEqual g c j) = false).
Proof.
  unfold main.GlyphOutlineEqual, GlyphOutlineEqual.
  destruct (N.eqb_spec (font_Index (specialFont g) c) 0) as [H1|H1]; cbn [orb].
  { repeat split; try discriminate. intros (? & _); contradiction. }
  destruct (N.eqb_spec (font_Index (standardFont g) j) 0) as [H2|H2]; cbn [orb].
  { repeat split; try discriminate. intros (_ & ? & _); contradiction. }
  destruct (buf_Load (specialFont g) _ _ _) as [buf1|e1].
  2: { split; [reflexivity|]. split; [|reflexivity]. intros err. cbn. split.
       - intros [= <-]. repeat split; try assumption. left. exists e1. auto.
       - intros (_ & _ & [(e & [= <-] & ->) | (b & e & [=] & _)]). reflexivity. }
  destruct (buf_Load (standardFont g) _ _ _) as [buf2|e2].
  2: { split; [reflexivity|]. split; [|reflexivity]. intros err. cbn. split.
       - intros [= <-]. repeat split; try assumption. right. exists buf1, e2. auto.
       - intros (_ & _ & [(e & [=] & _) | (b & e & _ & [= <-] & ->)]). reflexivity. }
  split; [reflexivity|]. split; [|discriminate]. intros err. cbn. split.
  - discriminate.
  - intros (_ & _ & [(e & [=] & _) | (b & e & _ & [=] & _)]).
Qed.

Lemma main_hasGlyph_fst font char :
  fst (main.hasGlyph font char) = hasGlyph font char.
Proof.
  destruct font as [font|]; [|reflexivity]. unfold main.hasGlyph, hasGlyph.
  destruct (face_GlyphBounds font {| Size := 12 |} char) as [[bounds advance] ok].
  repeat match goal with |- context [if ?x then _ else _] => destruct x end; reflexivity.
Qed.

Lemma main_GlyphOutlineEqual_fst g c j :
  fst (main.GlyphOutlineEqual g c j) = value (GlyphOutlineEqual g c j).
Proof.
  unfold main.GlyphOutlineEqual, GlyphOutlineEqual.
  destruct (_ || _); [reflexivity|].
  destruct (buf_Load (specialFont g) _ _ _); [|reflexivity].
  destruct (buf_Load (standardFont g) _ _ _); reflexivity.
Qed.

Lemma main_scan_agrees g c js ok :
  main.scan g c js ok = value (scan g c js ok).
Proof.
  revert ok. induction js as [|j js IH]; intros ok; [reflexivity|].
  rewrite scan_cons. cbn [main.scan].
  rewrite main_hasGlyph_fst, main_GlyphOutlineEqual_fst.
  unfold matches.
  destruct (hasGlyph (Some (standardFont g)) (wrap32 j)); cbn [negb andb]; [|apply IH].
  destruct (value (GlyphOutlineEqual g c (wrap32 j))); [reflexivity | apply IH].
Qed.

(** X21. [MappingRune] of package [main], which drops the reasons and the
    errors of the functions it calls, returns the same three results as
    that of package [mapper]; so what holds of the one holds of the
    other, and a load error never shows in its result. *)
Theorem main_MappingRune_agrees (g : GlyphOutlineMapper) (c : rune) :
  main.MappingRune g c = value (MappingRune g c).
Proof.
  unfold main.MappingRune. rewrite MappingRune_value, main_hasGlyph_fst.
  destruct (hasGlyph (Some (specialFont g)) c); cbn [negb]; [|reflexivity].
  apply main_scan_agrees.
Qed.
